(** * STOMP client: wire-frame parser and asynchronous client guards

    A shallow embedding of [stompest/protocol/spec.py],
    [stompest/protocol/parser.py] and of the command guards, the
    handlers of ERROR frames and of the lost connection, and the
    heart-beat timers of [stompest/async/client.py], followed by the
    properties the specification states about them.

    Conventions of the embedding.
    - A Python byte string is a [string]; its characters are [ascii] values.
    - A Python [dict] with string keys is a [gmap string string]; a Python
      [set] of strings is a [gset string].
    - A method that mutates [self] is a function from the object to the
      mutated object; a method that may raise returns the object as it is
      at the moment of the [raise] together with the exception.
    - A Python [float] is a binary64 [float]; a reading of the clock
      ([time.time()]) is an argument of the method that takes it.
    - Calls to the logger are not part of the model. *)

From stdpp Require Import base option strings gmap list.
From Stdlib Require Import ZArith QArith_base Ascii Floats Uint63.

Local Open Scope Z_scope.

#[local] Arguments String.append : simpl nomatch.
#[local] Set Warnings "-inexact-float".

(** ** protocol/spec.py *)

Module StompSpec.

Inductive Version := VERSION_1_0 | VERSION_1_1.

#[export] Instance Version_eq_dec : EqDecision Version.
Proof. solve_decision. Defined.

Definition VERSIONS : list Version := [VERSION_1_0; VERSION_1_1].
Definition DEFAULT_VERSION : Version := VERSION_1_0.

Definition ABORT : string := "ABORT".
Definition ACK : string := "ACK".
Definition BEGIN : string := "BEGIN".
Definition COMMIT : string := "COMMIT".
Definition CONNECT : string := "CONNECT".
Definition DISCONNECT : string := "DISCONNECT".
Definition NACK : string := "NACK".
Definition SEND : string := "SEND".
Definition STOMP : string := "STOMP".
Definition SUBSCRIBE : string := "SUBSCRIBE".
Definition UNSUBSCRIBE : string := "UNSUBSCRIBE".

(** The sets of the literal [CLIENT_COMMANDS = {...}], as they are
    created. *)
Definition CLIENT_COMMANDS_created (v : Version) : gset string :=
  match v with
  | VERSION_1_0 =>
      {[ ABORT; ACK; BEGIN; COMMIT; CONNECT; DISCONNECT;
         SEND; SUBSCRIBE; UNSUBSCRIBE ]}
  | VERSION_1_1 =>
      {[ ABORT; ACK; BEGIN; COMMIT; CONNECT; DISCONNECT;
         NACK; SEND; STOMP; SUBSCRIBE; UNSUBSCRIBE ]}
  end.

Definition CONNECTED : string := "CONNECTED".
Definition ERROR : string := "ERROR".
Definition MESSAGE : string := "MESSAGE".
Definition RECEIPT : string := "RECEIPT".

(** The sets of the literal [SERVER_COMMANDS = {...}], as they are
    created. *)
Definition SERVER_COMMANDS_created (v : Version) : gset string :=
  match v with
  | VERSION_1_0 => {[ CONNECTED; ERROR; MESSAGE; RECEIPT ]}
  | VERSION_1_1 => {[ CONNECTED; ERROR; MESSAGE; RECEIPT ]}
  end.

(** The values of the three dictionaries are set objects, and a set is
    mutable: the class body is run over a store that maps every set
    object, named after the literal that creates it, to its elements. *)
Inductive SetObject :=
  | ClientSet (v : Version)
  | ServerSet (v : Version).

#[export] Instance SetObject_eq_dec : EqDecision SetObject.
Proof. solve_decision. Defined.

Definition Store := SetObject → gset string.

Definition created : Store := λ o,
  match o with
  | ClientSet v => CLIENT_COMMANDS_created v
  | ServerSet v => SERVER_COMMANDS_created v
  end.

(** The dictionaries, from a version to the set object it is bound to.
    [COMMANDS = dict(CLIENT_COMMANDS)] copies the bindings, not the
    sets: under every version [COMMANDS] holds the very object that
    [CLIENT_COMMANDS] holds. *)
Definition CLIENT_COMMANDS_at (v : Version) : SetObject := ClientSet v.
Definition SERVER_COMMANDS_at (v : Version) : SetObject := ServerSet v.
Definition COMMANDS_at (v : Version) : SetObject := CLIENT_COMMANDS_at v.

(** [target.update(elements)]. *)
Definition set_update (target : SetObject) (elements : gset string) (s : Store)
    : Store :=
  λ o, if decide (o = target) then s o ∪ elements else s o.

(** The loop [for (version, commands) in SERVER_COMMANDS.iteritems():
    COMMANDS.setdefault(version, set()).update(commands)]; every version
    is bound in [COMMANDS], so that [setdefault] returns the object that
    is there. *)
Definition class_body : Store :=
  foldl (λ s v, set_update (COMMANDS_at v) (s (SERVER_COMMANDS_at v)) s)
    created VERSIONS.

(** The tables as every reader of the class finds them. *)
Definition CLIENT_COMMANDS (v : Version) : gset string :=
  class_body (CLIENT_COMMANDS_at v).

Definition SERVER_COMMANDS (v : Version) : gset string :=
  class_body (SERVER_COMMANDS_at v).

Definition COMMANDS (v : Version) : gset string :=
  class_body (COMMANDS_at v).

Definition LINE_DELIMITER : ascii := "010"%char.
Definition FRAME_DELIMITER : ascii := "000"%char.
Definition HEADER_SEPARATOR : ascii := ":"%char.

Definition CONTENT_LENGTH_HEADER : string := "content-length".
Definition MESSAGE_ID_HEADER : string := "message-id".
Definition RECEIPT_HEADER : string := "receipt".
Definition RECEIPT_ID_HEADER : string := "receipt-id".
Definition SUBSCRIPTION_HEADER : string := "subscription".

End StompSpec.

Import StompSpec.

(** ** Byte strings *)

(** [buffer.write(character)] on a [cStringIO] buffer. *)
Definition write (buffer : string) (character : ascii) : string :=
  buffer +:+ String character "".

(** [header.split(separator, 1)]: the text before and after the first
    separator, [None] where Python's unpacking of a one-element list
    raises [ValueError]. *)
Fixpoint split1 (separator : ascii) (s : string) : option (string * string) :=
  match s with
  | "" => None
  | String c rest =>
      if decide (c = separator) then Some ("", rest)
      else match split1 separator rest with
           | Some (name, value) => Some (String c name, value)
           | None => None
           end
  end.

(** Python's [int] on a byte string: optional white space around an
    optional sign and a non-empty run of decimal digits; [None] where
    [int] raises [ValueError]. *)
Definition is_space (c : ascii) : bool :=
  match N_of_ascii c with
  | 9%N | 10%N | 11%N | 12%N | 13%N | 32%N => true
  | _ => false
  end.

Definition digit (c : ascii) : option Z :=
  let n := Z.of_N (N_of_ascii c) in
  if decide (48 ≤ n ≤ 57) then Some (n - 48) else None.

Fixpoint digits (acc : Z) (s : string) : option Z :=
  match s with
  | "" => Some acc
  | String c rest =>
      match digit c with
      | Some d => digits (10 * acc + d) rest
      | None => None
      end
  end.

Fixpoint lstrip (s : string) : string :=
  match s with
  | String c rest => if is_space c then lstrip rest else s
  | "" => ""
  end.

Fixpoint rstrip (s : string) : string :=
  match s with
  | String c rest =>
      match rstrip rest with
      | "" => if is_space c then "" else String c ""
      | r => String c r
      end
  | "" => ""
  end.

Definition unsigned (s : string) : option Z :=
  match s with
  | "" => None
  | _ => digits 0 s
  end.

Definition int (s : string) : option Z :=
  match rstrip (lstrip s) with
  | String "-" r => Z.opp <$> unsigned r
  | String "+" r => unsigned r
  | r => unsigned r
  end.

(** ** protocol/frame.py (the classes the parser instantiates) *)

(** Modelled from the spec: the class [StompFrame] of protocol/frame.py
    is not among the sources this development covers. "Frame: a record
    {command: string, headers: mapping string→string, body: byte
    string}. Equality is structural." A frame built without arguments
    has an empty command, no headers and an empty body. *)
Record StompFrame := mkFrame {
  command : string;
  headers : gmap string string;
  body : string
}.

#[export] Instance StompFrame_eq_dec : EqDecision StompFrame.
Proof. solve_decision. Defined.

Definition StompFrame_new : StompFrame := mkFrame "" ∅ "".

(** What the parser queues: a frame, or the heart-beat token
    [StompHeartBeat()]. *)
Inductive Token :=
  | Frame (frame : StompFrame)
  | StompHeartBeat.

#[export] Instance Token_eq_dec : EqDecision Token.
Proof. solve_decision. Defined.

(** ** protocol/parser.py *)

(** The keys of the [_parsers] table; the slot [self.parse] always holds
    the method stored under one of them. *)
Inductive ParserState :=
  | S_heart_beat
  | S_command
  | S_headers
  | S_body.

#[export] Instance ParserState_eq_dec : EqDecision ParserState.
Proof. solve_decision. Defined.

(** [StompFrameError] as raised by the parser, with the value its message
    is formatted from. *)
Inductive StompFrameError :=
  | InvalidCommand (command : string)
  | NoSeparator (header : string).

#[export] Instance StompFrameError_eq_dec : EqDecision StompFrameError.
Proof. solve_decision. Defined.

Inductive Exception :=
  | FrameError (e : StompFrameError)
  | ValueError (literal : string).

#[export] Instance Exception_eq_dec : EqDecision Exception.
Proof. solve_decision. Defined.

Record StompParser := mkParser {
  version : Version;
  _state : ParserState;
  _buffer : string;
  _frame : StompFrame;
  _length : Z;
  _read : Z;
  _frames : list Token
}.

(** The outcome of a method that may raise: the parser as the call leaves
    it, and the exception when one was raised. *)
Definition Outcome : Type := StompParser * option Exception.

Definition returns (p : StompParser) : Outcome := (p, None).
Definition raises (e : Exception) (p : StompParser) : Outcome := (p, Some e).

Definition with_buffer (b : string) (p : StompParser) : StompParser :=
  mkParser (version p) (_state p) b (_frame p) (_length p) (_read p) (_frames p).

Definition with_state (s : ParserState) (p : StompParser) : StompParser :=
  mkParser (version p) s (_buffer p) (_frame p) (_length p) (_read p) (_frames p).

Definition with_frame (f : StompFrame) (p : StompParser) : StompParser :=
  mkParser (version p) (_state p) (_buffer p) f (_length p) (_read p) (_frames p).

Definition with_length (n : Z) (p : StompParser) : StompParser :=
  mkParser (version p) (_state p) (_buffer p) (_frame p) n (_read p) (_frames p).

Definition with_read (n : Z) (p : StompParser) : StompParser :=
  mkParser (version p) (_state p) (_buffer p) (_frame p) (_length p) n (_frames p).

Definition with_frames (q : list Token) (p : StompParser) : StompParser :=
  mkParser (version p) (_state p) (_buffer p) (_frame p) (_length p) (_read p) q.

Definition canRead (p : StompParser) : bool :=
  match _frames p with
  | [] => false
  | _ :: _ => true
  end.

(** [get]: the result ([None] when nothing is queued) and the parser
    after the call. *)
Definition get (p : StompParser) : option Token * StompParser :=
  if canRead p then
    match _frames p with
    | t :: q => (Some t, with_frames q p)
    | [] => (None, p)
    end
  else (None, p).

Definition _flush (p : StompParser) : StompParser := with_buffer "" p.

Definition _transition (s : ParserState) (p : StompParser) : StompParser :=
  with_state s (_flush p).

Definition _next (p : StompParser) : StompParser :=
  _transition S_heart_beat
    (with_read 0 (with_length (-1) (with_frame StompFrame_new p))).

Definition reset (p : StompParser) : StompParser :=
  _next (with_frames [] p).

(** [StompParser(version)]; [None] stands for the default version. *)
Definition StompParser_new (v : option Version) : StompParser :=
  reset (mkParser (default DEFAULT_VERSION v) S_heart_beat "" StompFrame_new
           (-1) 0 []).

Definition _parseCommand (p : StompParser) (character : ascii) : Outcome :=
  if decide (character ≠ LINE_DELIMITER) then
    returns (with_buffer (write (_buffer p) character) p)
  else
    let command := _buffer p in
    if decide (command = "") then returns p
    else if decide (command ∉ COMMANDS (version p)) then
      raises (FrameError (InvalidCommand command)) (_flush p)
    else
      returns (_transition S_headers
                 (with_frame (mkFrame command (headers (_frame p))
                                (body (_frame p))) p)).

(** After [self._transition('command')] the slot [self.parse] holds
    [_parseCommand], so the re-dispatch [self.parse(character)] is a call
    of [_parseCommand]. *)
Definition _parseHeartBeat (p : StompParser) (character : ascii) : Outcome :=
  if decide (character ≠ LINE_DELIMITER) then
    _parseCommand (_transition S_command p) character
  else if decide (version p ≠ VERSION_1_0) then
    returns (with_frames (_frames p ++ [StompHeartBeat]) p)
  else returns p.

Definition _parseHeader (p : StompParser) (character : ascii) : Outcome :=
  if decide (character ≠ LINE_DELIMITER) then
    returns (with_buffer (write (_buffer p) character) p)
  else
    let header := _buffer p in
    if decide (header ≠ "") then
      match split1 HEADER_SEPARATOR header with
      | None => raises (FrameError (NoSeparator header)) p
      | Some (name, value) =>
          returns (_transition S_headers
                     (with_frame (mkFrame (command (_frame p))
                                    (<[name := value]> (headers (_frame p)))
                                    (body (_frame p))) p))
      end
    else
      match headers (_frame p) !! CONTENT_LENGTH_HEADER with
      | None => returns (_transition S_body (with_length (-1) p))
      | Some literal =>
          match int literal with
          | Some n => returns (_transition S_body (with_length n p))
          | None => raises (ValueError literal) p
          end
      end.

Definition _parseBody (p : StompParser) (character : ascii) : Outcome :=
  let p := with_read (_read p + 1) p in
  if decide (_read p ≤ _length p ∨ character ≠ FRAME_DELIMITER) then
    returns (with_buffer (write (_buffer p) character) p)
  else
    let frame :=
      mkFrame (command (_frame p)) (headers (_frame p)) (_buffer p) in
    returns (_next (with_frames (_frames p ++ [Frame frame])
                      (with_frame frame p))).

(** [self.parse(character)]: the call of whatever method the slot holds. *)
Definition parse (p : StompParser) (character : ascii) : Outcome :=
  match _state p with
  | S_heart_beat => _parseHeartBeat p character
  | S_command => _parseCommand p character
  | S_headers => _parseHeader p character
  | S_body => _parseBody p character
  end.

(** [add(data)] for a byte string [data]. The elements of a byte string
    are one-character strings, none of which evaluates to false, so the
    guard [if not character: return] never fires and every character is
    handed to [parse]; an exception ends the loop. *)
Fixpoint add (p : StompParser) (data : string) : Outcome :=
  match data with
  | "" => returns p
  | String character rest =>
      match parse p character with
      | (p', None) => add p' rest
      | raised => raised
      end
  end.

(** Feeding a sequence of chunks, one [add] call per chunk; the first
    exception ends the sequence. *)
Fixpoint add_chunks (p : StompParser) (chunks : list string) : Outcome :=
  match chunks with
  | [] => returns p
  | data :: rest =>
      match add p data with
      | (p', None) => add_chunks p' rest
      | raised => raised
      end
  end.

(** [n] successive calls of [get]: their results in order, and the parser
    after the last one. *)
Fixpoint gets (n : nat) (p : StompParser) : list (option Token) * StompParser :=
  match n with
  | O => ([], p)
  | S n' =>
      let '(t, p') := get p in
      let '(ts, p'') := gets n' p' in
      (t :: ts, p'')
  end.

(** ** The wire format *)

(** [c in s] for a character [c]. *)
Fixpoint occurs (c : ascii) (s : string) : bool :=
  match s with
  | "" => false
  | String c' rest => bool_decide (c' = c) || occurs c rest
  end.

Definition line_end : string := String LINE_DELIMITER "".
Definition frame_end : string := String FRAME_DELIMITER "".

Definition header_line (h : string * string) : string :=
  h.1 +:+ String HEADER_SEPARATOR "" +:+ h.2 +:+ line_end.

Fixpoint header_lines (l : list (string * string)) : string :=
  match l with
  | [] => ""
  | h :: rest => header_line h +:+ header_lines rest
  end.

(** Modelled from the spec: the serialiser of protocol/frame.py is not
    among the sources this development covers. Section 6 gives the wire
    format: the command and a line delimiter, one [name:value] line per
    header, an empty line, the body and the frame delimiter. *)
Definition wire (command : string) (lines : list (string * string))
    (body : string) : string :=
  command +:+ line_end +:+ header_lines lines +:+ line_end
    +:+ body +:+ frame_end.

(** The wire form of a frame, given the order in which the headers of a
    dictionary are written out. *)
Definition serialise (order : gmap string string → list (string * string))
    (f : StompFrame) : string :=
  wire (command f) (order (headers f)) (body f).

Fixpoint serialise_all (order : gmap string string → list (string * string))
    (fs : list StompFrame) : string :=
  match fs with
  | [] => ""
  | f :: rest => serialise order f +:+ serialise_all order rest
  end.

Fixpoint join (chunks : list string) : string :=
  match chunks with
  | [] => ""
  | data :: rest => data +:+ join rest
  end.

(** [headers[name] = value] for a header line, and the dictionary that
    a sequence of header lines leaves behind. *)
Definition store (hs : gmap string string) (h : string * string)
    : gmap string string :=
  <[h.1 := h.2]> hs.

Definition stored (lines : list (string * string)) : gmap string string :=
  foldl store ∅ lines.

(** [int(headers.get('content-length', -1))], [None] where [int] raises. *)
Definition content_length (hs : gmap string string) : option Z :=
  match hs !! CONTENT_LENGTH_HEADER with
  | Some literal => int literal
  | None => Some (-1)
  end.

(** The parser between two frames, with [q] queued: what [_next] leaves. *)
Definition idle (v : Version) (q : list Token) : StompParser :=
  mkParser v S_heart_beat "" StompFrame_new (-1) 0 q.

(** A header line that the wire format can carry: no line delimiter in
    the name or the value, no separator in the name. *)
Definition valid_header (h : string * string) : bool :=
  negb (occurs LINE_DELIMITER h.1) && negb (occurs HEADER_SEPARATOR h.1)
    && negb (occurs LINE_DELIMITER h.2).

(** The body agrees with the headers: with a [content-length] header the
    header gives the length of the body, without one the body holds no
    frame delimiter. *)
Definition valid_body (hs : gmap string string) (b : string) : bool :=
  match hs !! CONTENT_LENGTH_HEADER with
  | Some literal => bool_decide (int literal = Some (Z.of_nat (String.length b)))
  | None => negb (occurs FRAME_DELIMITER b)
  end.

(** A frame that is valid for protocol version [v]. *)
Definition valid_frame (v : Version) (f : StompFrame) : bool :=
  bool_decide (command f ∈ COMMANDS v)
    && forallb valid_header (map_to_list (headers f))
    && valid_body (headers f) (body f).

(** ** async/client.py *)

(** [needle in s] for byte strings. *)
Fixpoint startswith (s needle : string) : bool :=
  match needle, s with
  | "", _ => true
  | String a needle', String b s' => bool_decide (a = b) && startswith s' needle'
  | String _ _, "" => false
  end.

Fixpoint contains (needle s : string) : bool :=
  startswith s needle
  || match s with
     | "" => false
     | String _ s' => contains needle s'
     end.

(** The exceptions of stompest/error.py that the client raises or hands
    on as failures, each with the text (and, where the text is formatted
    from [frame.info()], the frame) it is built from; and the exceptions
    of Python and Twisted that the modelled methods can let escape. *)
Inductive Error :=
  | StompAlreadyRunningError (message : string)
  | StompCancelledError (message : string)
  | StompConnectionError (message : string)
  | StompProtocolError (message : string) (frame : option StompFrame)
  | KeyError
  | AttributeError
  | AlreadyCalledError.

#[export] Instance Error_eq_dec : EqDecision Error.
Proof. solve_decision. Defined.

(** A Twisted [Deferred] as far as the client is concerned: not fired
    yet, fired with a result, or fired with a failure. *)
Inductive Deferred :=
  | Waiting
  | CalledBack
  | ErredBack (failure : Error).

#[export] Instance Deferred_eq_dec : EqDecision Deferred.
Proof. solve_decision. Defined.

(** [d.callback(None)] and [d.errback(failure)]; [None] where Twisted
    raises [AlreadyCalledError]. *)
Definition callback (d : Deferred) : option Deferred :=
  match d with
  | Waiting => Some CalledBack
  | _ => None
  end.

Definition errback (failure : Error) (d : Deferred) : option Deferred :=
  match d with
  | Waiting => Some (ErredBack failure)
  | _ => None
  end.

(** Modelled from the spec: the session of protocol/session.py is not
    among the sources this development covers. Of its state the client's
    guards read the lifecycle state; "connect(...) transitions
    DISCONNECTED → CONNECTING", "disconnect also permitted in CONNECTED →
    DISCONNECTING", "any frame carrying a receipt header adds that id to
    pending-receipts", "close(flush) resets to DISCONNECTED; if flush,
    clear subscriptions/transactions; otherwise preserve subscriptions
    for replay". The DISCONNECT frame is the one the tests of
    [commands.disconnect] expect. *)
Module StompSession.

Inductive State := DISCONNECTED | CONNECTING | CONNECTED | DISCONNECTING.

#[global] Instance State_eq_dec : EqDecision State.
Proof. solve_decision. Defined.

Record Session := mk {
  state : State;
  subscriptions : list string;
  transactions : gset string;
  receipts : gset string
}.

Definition connect (s : Session) : option Session :=
  match state s with
  | DISCONNECTED =>
      Some (mk CONNECTING (subscriptions s) (transactions s) (receipts s))
  | _ => None
  end.

Definition disconnect (receipt : option string) (s : Session)
    : Session * StompFrame :=
  match receipt with
  | Some r =>
      (mk DISCONNECTING (subscriptions s) (transactions s)
         ({[ r ]} ∪ receipts s),
       mkFrame StompSpec.DISCONNECT {[ RECEIPT_HEADER := r ]} "")
  | None =>
      (mk DISCONNECTING (subscriptions s) (transactions s) (receipts s),
       mkFrame StompSpec.DISCONNECT ∅ "")
  end.

Definition close (flush : bool) (s : Session) : Session :=
  if flush then mk DISCONNECTED [] ∅ ∅
  else mk DISCONNECTED (subscriptions s) ∅ ∅.

End StompSession.

(** Modelled from the spec: the transport-facing protocol object of
    async/protocol.py is not among the sources this development covers;
    "all writes are funnelled through sendFrame", which hands the frame
    to it, and disconnect "closes the transport". The object is modelled
    by the frames written to it and by whether its connection is being
    closed; a transport that refuses a write is not modelled. *)
Record Protocol := mkProtocol {
  written : list StompFrame;
  closing : bool
}.

Definition send (frame : StompFrame) (pr : Protocol) : Protocol :=
  mkProtocol (written pr ++ [frame]) (closing pr).

Definition loseConnection (pr : Protocol) : Protocol :=
  mkProtocol (written pr) true.

(** Modelled from the spec: [InFlightOperations] of async/util.py is not
    among the sources this development covers; it is the "registry keyed
    by receipt id mapping to completion handles", used for the
    negotiation waiter (under the one key [None], here [()]), for the
    handlers of messages (by message id) and for receipts (by receipt
    id). A waiter is registered by [with self._registry(key) as waiter]
    and is in the registry while that block runs, "from the moment the
    frame is sent until" the awaited event; leaving the block, with or
    without an exception, takes it out. *)
Abbreviation InFlightOperations K := (gmap K Deferred).

Record Stomp := mkStomp {
  _session : StompSession.Session;
  _protocol : option Protocol;
  _connecting : InFlightOperations ();
  _disconnecting : bool;
  _messages : InFlightOperations string;
  _receipts : InFlightOperations string;
  _heartBeats : list string;
  _disconnected : option Deferred;
  _disconnectReason : option Error;
  _running : bool
}.

Definition with_session (s : StompSession.Session) (c : Stomp) : Stomp :=
  mkStomp s (_protocol c) (_connecting c) (_disconnecting c) (_messages c)
    (_receipts c) (_heartBeats c) (_disconnected c) (_disconnectReason c)
    (_running c).

Definition with_protocol (pr : option Protocol) (c : Stomp) : Stomp :=
  mkStomp (_session c) pr (_connecting c) (_disconnecting c) (_messages c)
    (_receipts c) (_heartBeats c) (_disconnected c) (_disconnectReason c)
    (_running c).

Definition with_connecting (w : InFlightOperations ()) (c : Stomp) : Stomp :=
  mkStomp (_session c) (_protocol c) w (_disconnecting c) (_messages c)
    (_receipts c) (_heartBeats c) (_disconnected c) (_disconnectReason c)
    (_running c).

Definition with_disconnecting (b : bool) (c : Stomp) : Stomp :=
  mkStomp (_session c) (_protocol c) (_connecting c) b (_messages c)
    (_receipts c) (_heartBeats c) (_disconnected c) (_disconnectReason c)
    (_running c).

Definition with_messages (w : InFlightOperations string) (c : Stomp) : Stomp :=
  mkStomp (_session c) (_protocol c) (_connecting c) (_disconnecting c) w
    (_receipts c) (_heartBeats c) (_disconnected c) (_disconnectReason c)
    (_running c).

Definition with_receipts (w : InFlightOperations string) (c : Stomp) : Stomp :=
  mkStomp (_session c) (_protocol c) (_connecting c) (_disconnecting c)
    (_messages c) w (_heartBeats c) (_disconnected c) (_disconnectReason c)
    (_running c).

Definition with_heartBeats (t : list string) (c : Stomp) : Stomp :=
  mkStomp (_session c) (_protocol c) (_connecting c) (_disconnecting c)
    (_messages c) (_receipts c) t (_disconnected c) (_disconnectReason c)
    (_running c).

Definition with_disconnected (d : option Deferred) (c : Stomp) : Stomp :=
  mkStomp (_session c) (_protocol c) (_connecting c) (_disconnecting c)
    (_messages c) (_receipts c) (_heartBeats c) d (_disconnectReason c)
    (_running c).

Definition with_disconnectReason (r : option Error) (c : Stomp) : Stomp :=
  mkStomp (_session c) (_protocol c) (_connecting c) (_disconnecting c)
    (_messages c) (_receipts c) (_heartBeats c) (_disconnected c) r
    (_running c).

Definition with_running (b : bool) (c : Stomp) : Stomp :=
  mkStomp (_session c) (_protocol c) (_connecting c) (_disconnecting c)
    (_messages c) (_receipts c) (_heartBeats c) (_disconnected c)
    (_disconnectReason c) b.

(** The setter of the property [_disconnectReason]: an existing reason
    wins over a new one, [None] clears. The failures assigned are
    exception instances, which are true in Python's sense. The attribute
    behind the property is created by [connect], with [None], before
    anything else assigns to it. *)
Definition set_disconnectReason (reason : option Error) (c : Stomp) : Stomp :=
  match reason with
  | Some r =>
      with_disconnectReason
        (Some (match _disconnectReason c with
               | Some existing => existing
               | None => r
               end)) c
  | None => with_disconnectReason None c
  end.

(** [sendFrame]: the getter of [_protocol] raises when there is no
    protocol. The time stamp that [session.sent()] takes is not part of
    the model. *)
Definition sendFrame (frame : StompFrame) (c : Stomp) : Stomp * option Error :=
  match _protocol c with
  | None => (c, Some (StompConnectionError "Not connected"))
  | Some pr => (with_protocol (Some (send frame pr)) c, None)
  end.

(** [_disconnect] is a coroutine; this is what it does up to the point
    where it first has to wait (for the handlers in flight, or for the
    receipt of the DISCONNECT frame) or, when there is nothing to wait
    for, up to its end. *)
Definition _disconnect (c : Stomp) (receipt : option string)
    (failure : option Error) (timeout : option Q) : Stomp :=
  let c :=
    match failure with
    | Some f => set_disconnectReason (Some f) c
    | None => c
    end in
  match _protocol c with
  | None => c
  | Some _ =>
      if decide (_messages c ≠ (∅ : InFlightOperations string)) then c
      else
        let close (c : Stomp) := with_protocol (loseConnection <$> _protocol c) c in
        if decide (StompSession.state (_session c) = StompSession.CONNECTED) then
          let '(session, frame) := StompSession.disconnect receipt (_session c) in
          let '(c, raised) := sendFrame frame (with_session session c) in
          let c :=
            match raised with
            | Some _ =>
                set_disconnectReason (Some (StompConnectionError "Could not send")) c
            | None => c
            end in
          match receipt with
          | Some r => with_receipts (<[r := Waiting]> (_receipts c)) c
          | None => close c
          end
        else close c
  end.

(** [disconnect], behind the decorator [connected = checkattr('_protocol')],
    which reads the property [_protocol] before the call. *)
Definition disconnect (c : Stomp) (receipt : option string)
    (failure : option Error) (timeout : option Q) : Stomp * option Error :=
  match _protocol c with
  | None => (c, Some (StompConnectionError "Not connected"))
  | Some _ =>
      if _disconnecting c then
        (c, Some (StompAlreadyRunningError "Already disconnecting"))
      else
        (_disconnect (with_disconnecting true c) receipt failure timeout, None)
  end.

Definition UNEXPECTED_ACK : string := "Unexpected ACK received for message-id".

(** The rest of [connect] from [yield wait(connected, ...)] on, when
    the negotiation waiter [connected] errs back with [e]. Twisted runs
    the callbacks of a deferred while it fires: the coroutine is resumed
    inside the call of [errback]. The exception leaves the [with] block,
    which takes the waiter out of [_connecting], and its handler calls
    [self.disconnect(failure=e)]. When that call raises, the exception
    ends the coroutine: the deferred of [connect] errs back and
    [connect] is no longer in flight; otherwise the coroutine waits for
    [disconnected]. *)
Definition connect_failed (e : Error) (c : Stomp) : Stomp :=
  let c := with_connecting (delete () (_connecting c)) c in
  match disconnect c None (Some e) None with
  | (c, Some _) => with_running false c
  | (c, None) => c
  end.

(** [_onError], the handler the table [_handlers] holds for ERROR
    frames. While a negotiation is pending its waiter errs back, which
    resumes [connect] with that failure before the handler returns. *)
Definition _onError (c : Stomp) (frame : StompFrame) : Stomp * option Error :=
  if decide (_connecting c ≠ (∅ : InFlightOperations ())) then
    match _connecting c !! () with
    | None => (c, Some KeyError)
    | Some waiting =>
        let failure :=
          StompProtocolError "While trying to connect, received" (Some frame) in
        match errback failure waiting with
        | Some _ => (connect_failed failure c, None)
        | None => (c, Some AlreadyCalledError)
        end
    end
  else if contains UNEXPECTED_ACK (default "" (headers frame !! "message")) then
    (c, None)
  else
    disconnect c None (Some (StompProtocolError "Received" (Some frame))) None.

(** The failure the waiters are cancelled with when the connection is
    lost. *)
Definition cancelled : Error :=
  StompCancelledError "In-flight operation cancelled (connection lost)".

(** [waiting.errback(...)] for every waiter that was not called yet. *)
Definition cancel (waiting : Deferred) : Deferred :=
  match waiting with
  | Waiting => ErredBack cancelled
  | called => called
  end.

(** The same for the waiters of receipts. The coroutine [_waitForReceipt]
    waits for its waiter inside the [with] block that registered it: the
    cancelled waiter resumes it, the exception leaves the block, and the
    waiter is out of the registry before [errback] returns. *)
Definition cancel_receipts (operations : InFlightOperations string)
    : InFlightOperations string :=
  filter (λ kw, kw.2 ≠ Waiting) operations.

(** What [_onConnectionLost] does to the deferred [disconnected], which
    the client forgets at the end of the method. *)
Inductive Lost :=
  | Fired (disconnected : Deferred)
  | Escaped (e : Error).

(** [_onConnectionLost(reason)], with the error message of [reason].
    A waiter that is cancelled runs its callbacks at once, and the
    coroutine that waits for it is resumed with the failure before the
    method goes on. For the negotiation waiter that is [connect]; for the
    waiter of a receipt it is [_waitForReceipt]. The waiter of a message
    stays where it is: [_onMessage] waits for the handler of the message,
    not for the waiter. The rest of [_disconnect], when it was waiting
    for one of the waiters, assigns a reason of its own, through the
    setter: [resumed] lists these reasons. When [disconnected] fires, a
    [connect] that waits for it, after a negotiation that failed, is
    resumed and ends: no [connect] is in flight afterwards.
    Modelled from the spec: [self._beats()] after the session is closed
    finds no heart-beat period, "on connection loss both timers are
    cancelled". *)
Definition _onConnectionLost (c : Stomp) (reason : string)
    (resumed : list Error) : Stomp * Lost :=
  let c := with_protocol None c in
  let c :=
    if negb (_disconnecting c) then
      set_disconnectReason
        (Some (StompConnectionError
                 ("Unexpected connection loss [" +:+ reason +:+ "]"))) c
    else c in
  let c :=
    with_session
      (StompSession.close (bool_decide (_disconnectReason c = None))
         (_session c)) c in
  let c := with_heartBeats [] c in
  let c :=
    match _connecting c !! () with
    | Some Waiting => connect_failed cancelled c
    | _ => c
    end in
  let c := with_messages (cancel <$> _messages c) c in
  let c := with_receipts (cancel_receipts (_receipts c)) c in
  let c := foldl (λ c e, set_disconnectReason (Some e) c) c resumed in
  let fire (d : Deferred) :=
    match _disconnectReason c with
    | Some r => errback r d
    | None => callback d
    end in
  match _disconnected c with
  | None => (c, Escaped AttributeError)
  | Some d =>
      match fire d with
      | None => (c, Escaped AlreadyCalledError)
      | Some fired =>
          (with_disconnected None
             (set_disconnectReason None
                (with_disconnecting false (with_running false c))),
           Fired fired)
      end
  end.

(** Modelled from the spec: the decorator [exclusive] of async/util.py is
    not among the sources this development covers. "Only one connect may
    be in flight (AlreadyRunning otherwise)": a call while an earlier one
    has not finished raises, any other call runs the body, and the
    command is in flight until the deferred of the body has fired. The
    body reports the failure it ended with before it had to wait, if
    any. *)
Definition exclusive (body : Stomp → Stomp * option Error) (c : Stomp)
    : Stomp * (Error + Deferred) :=
  if _running c then
    (c, inl (StompAlreadyRunningError "connect still running"))
  else
    match body (with_running true c) with
    | (c', Some failure) => (with_running false c', inr (ErredBack failure))
    | (c', None) => (c', inr Waiting)
    end.

(** [connect] up to the point where it waits for the endpoint: the
    session builds the CONNECT frame and moves to CONNECTING, a client
    that has a protocol is already connected. *)
Definition connect_body (c : Stomp) : Stomp * option Error :=
  match StompSession.connect (_session c) with
  | None =>
      (c, Some (StompProtocolError "Cannot connect in this state" None))
  | Some session =>
      let c := with_session session c in
      match _protocol c with
      | Some _ => (c, Some (StompConnectionError "Already connected"))
      | None => (c, None)
      end
  end.

Definition connect : Stomp → Stomp * (Error + Deferred) :=
  exclusive connect_body.

(** ** async/client.py: heart-beats *)

(** The conversion of a Python [int] to a [float], which the product of
    a threshold with a period performs: the nearest float. The periods
    are those of a heart-beat header, below [2^63]. *)
Definition float_of_int (n : Z) : float :=
  if decide (n < 0) then (- PrimFloat.of_uint63 (Uint63.of_Z (- n)))%float
  else PrimFloat.of_uint63 (Uint63.of_Z n).

(** Python's [max(a, b)]: the first argument, unless the second is
    greater. *)
Definition python_max (a b : float) : float :=
  if (a <? b)%float then b else a.

(** The two directions, ['client'] and ['server']. *)
Inductive Which := client | server.

#[export] Instance Which_eq_dec : EqDecision Which.
Proof. solve_decision. Defined.

Definition key (which : Which) : string :=
  match which with
  | client => "client"
  | server => "server"
  end.

Definition DEFAULT_HEART_BEAT_THRESHOLDS (which : Which) : float :=
  match which with
  | client => 0.8%float
  | server => 2.0%float
  end.

(** Modelled from the spec: of the session of protocol/session.py the
    timers read the "negotiated (clientHeartBeat, serverHeartBeat) in
    milliseconds" and the "timestamps lastSent and lastReceived", in
    seconds as [time.time()] returns them; [sent()] is "called by the
    client on every outbound" frame "to update heart-beat timestamps",
    and [beat()] "builds an outbound heart-beat sentinel". A direction
    without a negotiated period has the period 0. *)
Record Beats := mkBeats {
  clientHeartBeat : Z;
  serverHeartBeat : Z;
  lastSent : float;
  lastReceived : float
}.

Definition sent (now : float) (session : Beats) : Beats :=
  mkBeats (clientHeartBeat session) (serverHeartBeat session) now
    (lastReceived session).

(** [_beatRemaining(which)], with [self._heartBeatThresholds] and the
    reading [now] of the clock. The [-1] and the [0] that Python returns
    as integers compare as the floats do. *)
Definition _beatRemaining (thresholds : Which → float) (session : Beats)
    (now : float) (which : Which) : float :=
  let heartBeat :=
    match which with
    | client => clientHeartBeat session
    | server => serverHeartBeat session
    end in
  if decide (heartBeat = 0) then (-1)%float
  else
    let last :=
      match which with
      | client => lastSent session
      | server => lastReceived session
      end in
    let elapsed := (now - last)%float in
    python_max
      (thresholds which * float_of_int heartBeat / 1000.0 - elapsed)%float
      0%float.

(** How a call of [_beat] ends. *)
Inductive Beat :=
  | Off
  | Scheduled (remaining : float)
  | Sent (remaining : float)
  | NotSent (e : Error)
  | TimedOut (raised : option Error).

(** [_beat(which)]. The dictionary [_heartBeats] is modelled by the keys
    that have a timer: the timer of [which] is cancelled and forgotten
    first. With no time left the client direction sends the heart-beat
    of the session through [sendFrame]: the getter of [_protocol] raises
    when there is no protocol, which ends the call ([NotSent]);
    otherwise the byte goes to the protocol object, the session takes
    the time stamp [stamp], and the time left is computed again, at
    [again] ([Sent]). The server direction calls [disconnect] and
    returns, whether that call raises or not ([TimedOut]). In the
    remaining cases [reactor.callLater(remaining, self._beat, which)]
    keeps the timer going ([Off] when the direction has no period).
    A heart-beat is not a frame, and the frames [written] to the
    protocol object do not list it. *)
Definition _beat (thresholds : Which → float) (session : Beats)
    (clock : float * float * float) (which : Which) (c : Stomp)
    : Stomp * Beats * Beat :=
  let '(now, stamp, again) := clock in
  let c := with_heartBeats (filter (λ k, k ≠ key which) (_heartBeats c)) c in
  let callLater (c : Stomp) := with_heartBeats (key which :: _heartBeats c) c in
  let remaining := _beatRemaining thresholds session now which in
  if (remaining <? 0)%float then (c, session, Off)
  else if (remaining =? 0)%float then
    match which with
    | client =>
        match _protocol c with
        | None => (c, session, NotSent (StompConnectionError "Not connected"))
        | Some _ =>
            let session := sent stamp session in
            let remaining := _beatRemaining thresholds session again which in
            (callLater c, session, Sent remaining)
        end
    | server =>
        let '(c, raised) :=
          disconnect c None
            (Some (StompConnectionError "Server heart-beat timeout")) None in
        (c, session, TimedOut raised)
    end
  else (callLater c, session, Scheduled remaining).

(** ** Notions used by the further properties *)

(** [n] line delimiters in a row. *)
Fixpoint line_ends (n : nat) : string :=
  match n with
  | O => ""
  | S n' => String LINE_DELIMITER (line_ends n')
  end.

(** The tokens that [n] line delimiters between frames are worth to a
    parser of version [v]. *)
Definition heart_beats (v : Version) (n : nat) : list Token :=
  if decide (v ≠ VERSION_1_0) then replicate n StompHeartBeat else [].

(** The frames of a queue, heart-beat tokens left out. *)
Fixpoint frames_only (q : list Token) : list Token :=
  match q with
  | [] => []
  | Frame f :: rest => Frame f :: frames_only rest
  | StompHeartBeat :: rest => frames_only rest
  end.

(** A frame as a parser of version [v] can build it: a command of that
    version, and header lines that fit on a line. *)
Definition frame_ok (v : Version) (f : StompFrame) : Prop :=
  command f ∈ COMMANDS v
  ∧ map_Forall (λ name value, valid_header (name, value) = true) (headers f).

(** A token as a parser of version [v] can queue it: a frame is as
    above, its [content-length], if any, is a number and its body is at
    least that long; a heart-beat token needs a version other than 1.0. *)
Definition token_ok (v : Version) (t : Token) : Prop :=
  match t with
  | Frame f =>
      frame_ok v f
      ∧ ∃ n, content_length (headers f) = Some n
             ∧ n ≤ Z.of_nat (String.length (body f))
  | StompHeartBeat => v ≠ VERSION_1_0
  end.

(** What holds of the fields of a parser between any two characters:
    the frame in progress is new until a command line is accepted, the
    length is set with the empty line only, and [_read] counts the
    characters of the body so far, which are the buffer. *)
Definition consistent (p : StompParser) : Prop :=
  match _state p with
  | S_heart_beat =>
      _buffer p = "" ∧ _frame p = StompFrame_new
      ∧ _length p = -1 ∧ _read p = 0
  | S_command =>
      occurs LINE_DELIMITER (_buffer p) = false ∧ _frame p = StompFrame_new
      ∧ _length p = -1 ∧ _read p = 0
  | S_headers =>
      occurs LINE_DELIMITER (_buffer p) = false
      ∧ frame_ok (version p) (_frame p) ∧ body (_frame p) = ""
      ∧ _length p = -1 ∧ _read p = 0
  | S_body =>
      frame_ok (version p) (_frame p) ∧ body (_frame p) = ""
      ∧ content_length (headers (_frame p)) = Some (_length p)
      ∧ _read p = Z.of_nat (String.length (_buffer p))
  end.

(** How often a character occurs in a byte string. *)
Fixpoint count (c : ascii) (s : string) : nat :=
  match s with
  | "" => O
  | String c' rest => (if decide (c' = c) then 1 else 0) + count c rest
  end.

(** * Properties of the parser *)

(** ** Byte strings *)

Lemma append_nil_r (s : string) : s +:+ "" = s.
Proof. induction s as [|c s IH]; simpl; congruence. Qed.

Lemma append_assoc (a b c : string) : (a +:+ b) +:+ c = a +:+ (b +:+ c).
Proof. induction a as [|x a IH]; simpl; congruence. Qed.

Lemma append_length (a b : string) :
  String.length (a +:+ b) = (String.length a + String.length b)%nat.
Proof. induction a as [|x a IH]; simpl; congruence. Qed.

Lemma occurs_app (c : ascii) (a b : string) :
  occurs c (a +:+ b) = occurs c a || occurs c b.
Proof.
  induction a as [|x a IH]; simpl; [done|].
  rewrite IH. by destruct (bool_decide (x = c)).
Qed.

Lemma split1_app (sep : ascii) (name value : string) :
  occurs sep name = false →
  split1 sep (name +:+ String sep value) = Some (name, value).
Proof.
  induction name as [|c name IH]; simpl; intros H.
  - by rewrite decide_True.
  - apply orb_false_iff in H as [Hc H].
    apply bool_decide_eq_false in Hc.
    rewrite decide_False by done. by rewrite IH.
Qed.

(** ** [add] runs character by character *)

Lemma add_app (p : StompParser) (a b : string) :
  add p (a +:+ b) =
    match add p a with
    | (p', None) => add p' b
    | raised => raised
    end.
Proof.
  revert p. induction a as [|c a IH]; intros p; simpl; [done|].
  destruct (parse p c) as [p' [e|]]; [done|]. apply IH.
Qed.

Lemma add_chunks_join (p : StompParser) (chunks : list string) :
  add_chunks p chunks = add p (join chunks).
Proof.
  revert p. induction chunks as [|data rest IH]; intros p; simpl; [done|].
  rewrite add_app. destruct (add p data) as [p' [e|]]; [done|]. apply IH.
Qed.

(** ** The four states, one at a time *)

(** Text without a line delimiter is accumulated by the command state and
    by the header state. *)
Lemma add_command_text v b fr len rd q (s : string) :
  occurs LINE_DELIMITER s = false →
  add (mkParser v S_command b fr len rd q) s
  = returns (mkParser v S_command (b +:+ s) fr len rd q).
Proof.
  revert b. induction s as [|c s IH]; intros b H; simpl in *.
  - by rewrite append_nil_r.
  - apply orb_false_iff in H as [Hc H]. apply bool_decide_eq_false in Hc.
    unfold parse, _parseCommand; simpl. rewrite decide_True by done.
    unfold returns, with_buffer, write; simpl. rewrite IH by done.
    by rewrite append_assoc.
Qed.

Lemma add_headers_text v b fr len rd q (s : string) :
  occurs LINE_DELIMITER s = false →
  add (mkParser v S_headers b fr len rd q) s
  = returns (mkParser v S_headers (b +:+ s) fr len rd q).
Proof.
  revert b. induction s as [|c s IH]; intros b H; simpl in *.
  - by rewrite append_nil_r.
  - apply orb_false_iff in H as [Hc H]. apply bool_decide_eq_false in Hc.
    unfold parse, _parseHeader; simpl. rewrite decide_True by done.
    unfold returns, with_buffer, write; simpl. rewrite IH by done.
    by rewrite append_assoc.
Qed.

(** The commands of a version after the class body: those of the two
    literals. *)
Lemma COMMANDS_elements v :
  COMMANDS v = CLIENT_COMMANDS_created v ∪ SERVER_COMMANDS_created v.
Proof. by destruct v. Qed.

(** Every known command is a non-empty word without a line delimiter. *)
Lemma command_shape v (cmd : string) :
  cmd ∈ COMMANDS v →
  ∃ c rest, cmd = String c rest ∧ c ≠ LINE_DELIMITER
            ∧ occurs LINE_DELIMITER rest = false.
Proof.
  rewrite COMMANDS_elements.
  unfold CLIENT_COMMANDS_created, SERVER_COMMANDS_created.
  destruct v; rewrite !elem_of_union, !elem_of_singleton;
    intros H; repeat destruct H as [H|H]; subst cmd;
    eexists _, _; (split; [reflexivity|split; [done|reflexivity]]).
Qed.

(** A command line takes the parser from the heart-beat state to the
    header state. *)
Lemma add_command_line v b fr len rd q (cmd rest : string) :
  cmd ∈ COMMANDS v →
  add (mkParser v S_heart_beat b fr len rd q) (cmd +:+ line_end +:+ rest)
  = add (mkParser v S_headers "" (mkFrame cmd (headers fr) (body fr))
           len rd q) rest.
Proof.
  intros Hin. destruct (command_shape _ _ Hin) as (c & w & -> & Hc & Hw).
  change (add (mkParser v S_heart_beat b fr len rd q)
            (String c (w +:+ line_end +:+ rest))
          = add (mkParser v S_headers ""
                   (mkFrame (String c w) (headers fr) (body fr)) len rd q) rest).
  cbn [add]. unfold parse at 1. cbn [_state]. unfold _parseHeartBeat.
  rewrite decide_True by done.
  unfold _transition, _flush, with_state, with_buffer, _parseCommand; cbn.
  rewrite decide_True by done. unfold returns, with_buffer, write; cbn.
  rewrite add_app, add_command_text by done. unfold returns.
  cbn [add line_end String.append]. unfold parse at 1. cbn [_state].
  unfold _parseCommand. cbn [_buffer version].
  rewrite decide_False by (intros ?; done).
  rewrite decide_False by done.
  rewrite decide_False by (intros H; by apply H).
  reflexivity.
Qed.

Lemma app_cons_ne_nil (a : string) (c : ascii) (b : string) :
  a +:+ String c b ≠ "".
Proof. by destruct a. Qed.

Lemma header_line_split (h : string * string) (rest : string) :
  header_line h +:+ rest
  = (h.1 +:+ String HEADER_SEPARATOR h.2) +:+ String LINE_DELIMITER rest.
Proof.
  unfold header_line, line_end. rewrite !append_assoc. reflexivity.
Qed.

Lemma valid_header_inv (h : string * string) :
  valid_header h = true →
  occurs LINE_DELIMITER h.1 = false ∧ occurs HEADER_SEPARATOR h.1 = false
  ∧ occurs LINE_DELIMITER h.2 = false.
Proof.
  unfold valid_header. rewrite !andb_true_iff, !negb_true_iff. tauto.
Qed.

(** A header line stores its value under its name, whatever was stored
    under that name before. *)
Lemma add_header_line v fr len rd q (h : string * string) (rest : string) :
  valid_header h = true →
  add (mkParser v S_headers "" fr len rd q) (header_line h +:+ rest)
  = add (mkParser v S_headers ""
           (mkFrame (command fr) (store (headers fr) h) (body fr)) len rd q)
        rest.
Proof.
  intros (Hn & Hs & Hv)%valid_header_inv.
  rewrite header_line_split, add_app, add_headers_text.
  2:{ rewrite occurs_app. simpl. rewrite Hn, Hv. done. }
  unfold returns. cbn [add String.append]. unfold parse at 1. cbn [_state].
  unfold _parseHeader. cbn [_buffer].
  rewrite decide_False by (intros ?; done).
  rewrite decide_True by apply app_cons_ne_nil.
  rewrite split1_app by done. reflexivity.
Qed.

Lemma add_header_lines v fr len rd q (l : list (string * string))
    (rest : string) :
  forallb valid_header l = true →
  add (mkParser v S_headers "" fr len rd q) (header_lines l +:+ rest)
  = add (mkParser v S_headers ""
           (mkFrame (command fr) (foldl store (headers fr) l) (body fr))
           len rd q) rest.
Proof.
  revert fr. induction l as [|h l IH]; intros fr Hl; simpl in *.
  - by destruct fr.
  - apply andb_true_iff in Hl as [Hh Hl].
    rewrite append_assoc, add_header_line by done. by rewrite IH.
Qed.

(** The empty line fixes the length and opens the body. *)
Lemma add_empty_line v fr len rd q (n : Z) (rest : string) :
  content_length (headers fr) = Some n →
  add (mkParser v S_headers "" fr len rd q) (line_end +:+ rest)
  = add (mkParser v S_body "" fr n rd q) rest.
Proof.
  intros Hn. unfold line_end. cbn [add String.append].
  unfold parse at 1. cbn [_state]. unfold _parseHeader. cbn [_buffer].
  rewrite decide_False by (intros ?; done).
  rewrite decide_False by (intros ?; done).
  unfold content_length in Hn. cbn [_frame].
  destruct (headers fr !! CONTENT_LENGTH_HEADER) as [literal|].
  - rewrite Hn. reflexivity.
  - by injection Hn as <-.
Qed.

(** Within the announced length the body state accepts every character. *)
Lemma add_body_counted v b fr len rd q (s : string) :
  rd + Z.of_nat (String.length s) ≤ len →
  add (mkParser v S_body b fr len rd q) s
  = returns (mkParser v S_body (b +:+ s) fr len
               (rd + Z.of_nat (String.length s)) q).
Proof.
  revert b rd. induction s as [|c s IH]; intros b rd H.
  - simpl. by rewrite append_nil_r, Z.add_0_r.
  - cbn [add]. unfold parse at 1. cbn [_state]. unfold _parseBody.
    cbn [String.length] in *.
    unfold with_read at 1; cbn.
    rewrite decide_True by (left; lia).
    unfold returns, with_buffer, write; cbn. rewrite IH by lia.
    rewrite append_assoc. cbn. unfold returns. do 2 f_equal. lia.
Qed.

(** Beyond it, every character but the frame delimiter. *)
Lemma add_body_text v b fr len rd q (s : string) :
  occurs FRAME_DELIMITER s = false →
  add (mkParser v S_body b fr len rd q) s
  = returns (mkParser v S_body (b +:+ s) fr len
               (rd + Z.of_nat (String.length s)) q).
Proof.
  revert b rd. induction s as [|c s IH]; intros b rd H.
  - simpl. by rewrite append_nil_r, Z.add_0_r.
  - cbn [add]. unfold parse at 1. cbn [_state]. unfold _parseBody.
    cbn [String.length occurs] in *.
    apply orb_false_iff in H as [Hc H]. apply bool_decide_eq_false in Hc.
    unfold with_read at 1; cbn.
    rewrite decide_True by (by right).
    unfold returns, with_buffer, write; cbn. rewrite IH by done.
    rewrite append_assoc. cbn. unfold returns. do 2 f_equal. lia.
Qed.

(** A frame delimiter beyond the announced length emits the frame. *)
Lemma add_body_end v b fr len rd q (rest : string) :
  len ≤ rd →
  add (mkParser v S_body b fr len rd q) (frame_end +:+ rest)
  = add (idle v (q ++ [Frame (mkFrame (command fr) (headers fr) b)])) rest.
Proof.
  intros H. unfold frame_end. cbn [add String.append].
  unfold parse at 1. cbn [_state]. unfold _parseBody.
  unfold with_read at 1; cbn.
  rewrite decide_False; [reflexivity|].
  intros [?|?]; [lia|done].
Qed.

(** ** Whole frames *)

(** The body of a frame and its delimiter, from the start of the body. *)
Lemma add_body v fr q (n : Z) (b rest : string) :
  content_length (headers fr) = Some n →
  valid_body (headers fr) b = true →
  add (mkParser v S_body "" fr n 0 q) (b +:+ frame_end +:+ rest)
  = add (idle v (q ++ [Frame (mkFrame (command fr) (headers fr) b)])) rest.
Proof.
  unfold content_length, valid_body. intros Hn Hb. rewrite add_app.
  destruct (headers fr !! CONTENT_LENGTH_HEADER) as [literal|].
  - apply bool_decide_eq_true in Hb. rewrite Hn in Hb. injection Hb as ->.
    rewrite add_body_counted by lia. unfold returns.
    by rewrite add_body_end by lia.
  - injection Hn as <-. apply negb_true_iff in Hb.
    rewrite add_body_text by done. unfold returns.
    by rewrite add_body_end by lia.
Qed.

(** One frame on the wire, whatever follows it: the parser queues the
    frame whose headers are the stored header lines. *)
Lemma add_wire v q (cmd : string) (l : list (string * string))
    (b rest : string) :
  cmd ∈ COMMANDS v →
  forallb valid_header l = true →
  valid_body (stored l) b = true →
  add (idle v q) (wire cmd l b +:+ rest)
  = add (idle v (q ++ [Frame (mkFrame cmd (stored l) b)])) rest.
Proof.
  intros Hcmd Hl Hb. unfold wire, idle. rewrite !append_assoc.
  rewrite add_command_line by done.
  rewrite add_header_lines by done. cbn [headers body StompFrame_new].
  fold (stored l).
  assert (∃ n, content_length (stored l) = Some n) as [n Hn].
  { unfold content_length, valid_body in *.
    destruct (stored l !! CONTENT_LENGTH_HEADER); [|by eauto].
    apply bool_decide_eq_true in Hb. eauto. }
  rewrite (add_empty_line _ _ _ _ _ n) by done.
  by rewrite add_body.
Qed.

(** ** What the header lines store *)

Lemma foldl_store_other (l : list (string * string))
    (m : gmap string string) (k : string) :
  k ∉ l.*1 → foldl store m l !! k = m !! k.
Proof.
  revert m. induction l as [|[n x] l IH]; intros m Hk; simpl in *; [done|].
  apply not_elem_of_cons in Hk as [Hn Hk].
  rewrite IH by done. unfold store; simpl. by rewrite lookup_insert_ne.
Qed.

(** The value of the last line with a given name is the one that stays. *)
Lemma foldl_store_last (l1 l2 : list (string * string))
    (m : gmap string string) (n x : string) :
  n ∉ l2.*1 → foldl store m (l1 ++ (n, x) :: l2) !! n = Some x.
Proof.
  intros Hn. rewrite foldl_app. simpl. rewrite foldl_store_other by done.
  unfold store; simpl. by rewrite lookup_insert_eq.
Qed.

(** Lines that list a dictionary, each name once, store that dictionary. *)
Lemma stored_listing (l : list (string * string)) (m : gmap string string) :
  l ≡ₚ map_to_list m → stored l = m.
Proof.
  intros Hl. apply map_eq. intros k. unfold stored.
  assert (NoDup l.*1) as Hnd.
  { rewrite Hl. apply NoDup_fst_map_to_list. }
  destruct (m !! k) as [x|] eqn:Hk.
  - apply elem_of_map_to_list in Hk. rewrite <- Hl in Hk.
    apply list_elem_of_split in Hk as (l1 & l2 & ->).
    apply foldl_store_last.
    rewrite fmap_app, fmap_cons in Hnd. simpl in Hnd.
    apply NoDup_app in Hnd as (_ & _ & Hnd). by apply NoDup_cons in Hnd as [? _].
  - rewrite foldl_store_other; [by rewrite lookup_empty|].
    intros ([k' x] & -> & Hin)%list_elem_of_fmap. simpl in Hk.
    rewrite Hl in Hin. apply elem_of_map_to_list in Hin. congruence.
Qed.

(** A sequence of frames on the wire. *)
Lemma add_serialise_all (order : gmap string string → list (string * string))
    (v : Version) (fs : list StompFrame) (q : list Token) :
  (∀ m, order m ≡ₚ map_to_list m) →
  forallb (valid_frame v) fs = true →
  add (idle v q) (serialise_all order fs) = returns (idle v (q ++ (Frame <$> fs))).
Proof.
  intros Horder. revert q. induction fs as [|f fs IH]; intros q Hfs; simpl in *.
  - by rewrite List.app_nil_r.
  - apply andb_true_iff in Hfs as [Hf Hfs].
    unfold valid_frame in Hf.
    apply andb_true_iff in Hf as [Hf Hb]. apply andb_true_iff in Hf as [Hc Hh].
    apply bool_decide_eq_true in Hc.
    unfold serialise.
    rewrite add_wire; rewrite ?(stored_listing _ _ (Horder (headers f))).
    + rewrite IH by done. destruct f. by rewrite <- List.app_assoc.
    + done.
    + rewrite forallb_forall in Hh |- *. intros h Hin. apply Hh.
      apply list_elem_of_In. apply list_elem_of_In in Hin.
      by rewrite <- (Horder (headers f)).
    + done.
Qed.

Lemma gets_queue v (q : list Token) :
  gets (length q) (idle v q) = (Some <$> q, idle v []).
Proof.
  induction q as [|t q IH]; simpl; [done|].
  unfold get, canRead; simpl.
  change (with_frames q (idle v (t :: q))) with (idle v q).
  by rewrite IH.
Qed.

Lemma gets_all (q : list Token) (p : StompParser) :
  _frames p = q →
  gets (length q) p = (Some <$> q, with_frames [] p).
Proof.
  revert p. induction q as [|t q IH]; intros p Hq; simpl.
  - destruct p; simpl in *. by subst.
  - unfold get, canRead. rewrite Hq.
    rewrite (IH (with_frames q p)) by done. by destruct p.
Qed.

(** The only way [parse] raises an invalid-command error. *)
Lemma parse_invalid_command (p p' : StompParser) (ch : ascii) (c : string) :
  parse p ch = raises (FrameError (InvalidCommand c)) p' →
  ch = LINE_DELIMITER ∧ _state p = S_command ∧ _buffer p = c
  ∧ c ≠ "" ∧ (c ∉ COMMANDS (version p)) ∧ p' = _flush p.
Proof.
  unfold parse, _parseHeartBeat, _parseCommand, _parseHeader, _parseBody,
    raises, returns.
  destruct (_state p); repeat case_decide; simpl;
    repeat case_match; try discriminate.
  intros Heq. injection Heq as <- <-. repeat split; done.
Qed.

(** ** The claims about the parser *)

(** C1, as the code has it: for every frame on the wire whose header
    lines may repeat a name, the parser stores each line under its name as
    it arrives, so a later line with the same name replaces the stored
    value and the emitted frame maps every name to the value of its LAST
    occurrence. *)
Theorem duplicate_header_last_wins (v : Version) (cmd : string)
    (l : list (string * string)) (b : string) :
  cmd ∈ COMMANDS v →
  forallb valid_header l = true →
  valid_body (stored l) b = true →
  add (StompParser_new (Some v)) (wire cmd l b)
    = returns (idle v [Frame (mkFrame cmd (stored l) b)])
  ∧ (∀ hs h, stored (hs ++ [h]) = <[h.1 := h.2]> (stored hs))
  ∧ (∀ l1 l2 name value,
       l = l1 ++ (name, value) :: l2 → name ∉ l2.*1 →
       stored l !! name = Some value).
Proof.
  intros Hcmd Hl Hb. split; [|split].
  - rewrite <- (append_nil_r (wire cmd l b)).
    change (StompParser_new (Some v)) with (idle v []).
    by rewrite add_wire.
  - intros hs h. unfold stored. by rewrite foldl_app.
  - intros l1 l2 name value -> Hname. by apply foldl_store_last.
Qed.

(** C1 as stated fails: of two lines with the name [a] the frame keeps
    the value of the second. *)
Lemma duplicate_header_first_lost :
  let emitted := mkFrame "SEND" {[ "a" := "2" ]} "" in
  _frames (add (StompParser_new (Some VERSION_1_1))
             (wire "SEND" [("a", "1"); ("a", "2")] "")).1
    = [Frame emitted]
  ∧ headers emitted !! "a" = Some "2"
  ∧ headers emitted !! "a" ≠ Some "1".
Proof. cbv zeta. split; [vm_compute; reflexivity|]. by vm_compute. Qed.

Lemma duplicate_header_last_wins_witness :
  add (StompParser_new (Some VERSION_1_1))
    (wire "SEND" [("a", "1"); ("b", "x"); ("a", "2")] "")
  = returns (idle VERSION_1_1
               [Frame (mkFrame "SEND" (stored [("a", "1"); ("b", "x"); ("a", "2")]) "")])
  ∧ stored [("a", "1"); ("b", "x"); ("a", "2")] !! "a" = Some "2".
Proof.
  destruct (duplicate_header_last_wins VERSION_1_1 "SEND"
              [("a", "1"); ("b", "x"); ("a", "2")] "") as (H1 & _ & H3).
  - by vm_compute.
  - reflexivity.
  - reflexivity.
  - split; [exact H1|].
    apply (H3 [("a", "1"); ("b", "x")] [] "a" "2"); [reflexivity|].
    apply not_elem_of_nil.
Defined.

(** C2: for every sequence of frames that are valid for the parser's
    version, written to the wire one after the other (the headers of
    each in any order), and for every way of cutting the bytes into
    chunks, feeding the chunks in order to a fresh parser raises nothing
    and queues exactly these frames: successive calls of [get] return
    them in order and leave a parser with nothing to read. *)
Theorem parser_completeness
    (order : gmap string string → list (string * string))
    (v : Version) (fs : list StompFrame) (chunks : list string) :
  (∀ m, order m ≡ₚ map_to_list m) →
  forallb (valid_frame v) fs = true →
  join chunks = serialise_all order fs →
  ∃ p, add_chunks (StompParser_new (Some v)) chunks = returns p
       ∧ _frames p = Frame <$> fs
       ∧ gets (length fs) p
         = ((λ f, Some (Frame f)) <$> fs, StompParser_new (Some v))
       ∧ canRead (StompParser_new (Some v)) = false
       ∧ get (StompParser_new (Some v)) = (None, StompParser_new (Some v)).
Proof.
  intros Horder Hfs Hjoin. exists (idle v (Frame <$> fs)).
  split; [|split; [done|split; [|done]]].
  - rewrite add_chunks_join, Hjoin.
    change (StompParser_new (Some v)) with (idle v []).
    by rewrite add_serialise_all.
  - rewrite <- (length_fmap Frame fs), (gets_all (Frame <$> fs)) by done.
    by rewrite <- list_fmap_compose.
Qed.

Lemma parser_completeness_witness :
  let receipt :=
    mkFrame "RECEIPT" {[ "receipt-id" := "message-12345" ]} "" in
  let message :=
    mkFrame "MESSAGE" {[ "content-length" := "3" ]}
      (String "a" (String FRAME_DELIMITER (String "b" ""))) in
  let bytes := serialise_all map_to_list [receipt; message] in
  let chunks := (λ c, String c "") <$> String.list_ascii_of_string bytes in
  ∃ p, add_chunks (StompParser_new (Some VERSION_1_1)) chunks = returns p
       ∧ _frames p = [Frame receipt; Frame message]
       ∧ gets 2 p = ([Some (Frame receipt); Some (Frame message)],
                     StompParser_new (Some VERSION_1_1))
       ∧ canRead (StompParser_new (Some VERSION_1_1)) = false
       ∧ get (StompParser_new (Some VERSION_1_1))
         = (None, StompParser_new (Some VERSION_1_1)).
Proof.
  intros receipt message bytes chunks.
  apply (parser_completeness map_to_list VERSION_1_1 [receipt; message] chunks).
  - reflexivity.
  - vm_compute. reflexivity.
  - vm_compute. reflexivity.
Defined.

(** C3: in the header state at the start of a line, with the announced
    length [n] (the value of [content-length] when the header is present
    and not negative, -1 when it is absent), the empty line opens the
    body; the first [n] characters are appended whatever they are, the
    characters after them are appended as long as they are not the frame
    delimiter, and nothing is queued meanwhile; the frame delimiter that
    follows queues the frame with all of them as its body and leaves the
    parser in the heart-beat state. *)
Theorem body_follows_content_length (v : Version) (fr : StompFrame)
    (len : Z) (q : list Token) (n : Z) (counted text : string) :
  (∃ literal, headers fr !! CONTENT_LENGTH_HEADER = Some literal
              ∧ int literal = Some n ∧ 0 ≤ n)
  ∨ (headers fr !! CONTENT_LENGTH_HEADER = None ∧ n = -1) →
  String.length counted = Z.to_nat n →
  occurs FRAME_DELIMITER text = false →
  let p := mkParser v S_headers "" fr len 0 q in
  let emitted := mkFrame (command fr) (headers fr) (counted +:+ text) in
  add p (line_end +:+ counted +:+ text)
    = returns (mkParser v S_body (counted +:+ text) fr n
                 (Z.of_nat (String.length (counted +:+ text))) q)
  ∧ add p (line_end +:+ counted +:+ text +:+ frame_end)
    = returns (idle v (q ++ [Frame emitted]))
  ∧ _state (idle v (q ++ [Frame emitted])) = S_heart_beat.
Proof.
  intros Hn Hcounted Htext p emitted.
  assert (content_length (headers fr) = Some n ∧ n ≤ Z.of_nat (String.length counted))
    as [Hlen Hge].
  { unfold content_length.
    destruct Hn as [(literal & -> & Hint & Hpos)|[-> ->]]; split; try done; lia. }
  assert (add p (line_end +:+ counted +:+ text)
          = returns (mkParser v S_body (counted +:+ text) fr n
                       (Z.of_nat (String.length (counted +:+ text))) q)) as Hbody.
  { unfold p. rewrite (add_empty_line _ _ _ _ _ n), add_app by done.
    assert (add (mkParser v S_body "" fr n 0 q) counted
            = returns (mkParser v S_body ("" +:+ counted) fr n
                         (0 + Z.of_nat (String.length counted)) q)) as ->.
    { destruct Hn as [(literal & _ & _ & Hpos)|[_ ->]].
      - apply add_body_counted. lia.
      - destruct counted; [done|discriminate]. }
    unfold returns. rewrite add_body_text by done.
    rewrite append_length, Nat2Z.inj_add. simpl. reflexivity. }
  split; [exact Hbody|split; [|done]].
  replace (line_end +:+ counted +:+ text +:+ frame_end)
    with ((line_end +:+ counted +:+ text) +:+ frame_end +:+ "")
    by (by rewrite !append_assoc, append_nil_r).
  rewrite add_app, Hbody. unfold returns.
  rewrite add_body_end; [done|]. rewrite append_length. lia.
Qed.

Lemma body_follows_content_length_witness :
  let fr := mkFrame "MESSAGE" {[ "content-length" := "3" ]} "" in
  let counted := String "a" (String FRAME_DELIMITER (String "b" "")) in
  let p := mkParser VERSION_1_1 S_headers "" fr (-1) 0 [] in
  let emitted := mkFrame "MESSAGE" {[ "content-length" := "3" ]}
                   (counted +:+ "cd") in
  add p (line_end +:+ counted +:+ "cd")
    = returns (mkParser VERSION_1_1 S_body (counted +:+ "cd") fr 3
                 (Z.of_nat (String.length (counted +:+ "cd"))) [])
  ∧ add p (line_end +:+ counted +:+ "cd" +:+ frame_end)
    = returns (idle VERSION_1_1 ([] ++ [Frame emitted]))
  ∧ _state (idle VERSION_1_1 ([] ++ [Frame emitted])) = S_heart_beat.
Proof.
  intros fr counted p emitted.
  apply (body_follows_content_length VERSION_1_1 fr (-1) [] 3 counted "cd").
  - left. exists "3". split; [reflexivity|]. split; [reflexivity|lia].
  - reflexivity.
  - reflexivity.
Defined.

(** C4, as the code has it: a command line that is not empty and whose
    text is not a command of the parser's version makes [add] raise
    [StompFrameError] for that text, with the rest of the data left
    unread; an empty command line is skipped instead. In particular a
    parser for version 1.0 raises on a NACK frame, and a parser for
    version 1.1 queues the NACK frame from the same bytes. *)
Theorem unknown_command_rejected (v : Version) (b : string)
    (fr : StompFrame) (len rd : Z) (q : list Token) (w rest : string) :
  w ≠ "" →
  occurs LINE_DELIMITER w = false →
  w ∉ COMMANDS v →
  let nack := wire "NACK" [("subscription", "0"); ("message-id", "007")] "" in
  add (mkParser v S_heart_beat b fr len rd q) (w +:+ line_end +:+ rest)
    = raises (FrameError (InvalidCommand w)) (mkParser v S_command "" fr len rd q)
  ∧ add (mkParser v S_command "" fr len rd q) (line_end +:+ w +:+ line_end +:+ rest)
    = raises (FrameError (InvalidCommand w)) (mkParser v S_command "" fr len rd q)
  ∧ add (StompParser_new (Some VERSION_1_0)) nack
    = raises (FrameError (InvalidCommand "NACK"))
        (mkParser VERSION_1_0 S_command "" StompFrame_new (-1) 0 [])
  ∧ add (StompParser_new (Some VERSION_1_1)) nack
    = returns (idle VERSION_1_1
                 [Frame (mkFrame "NACK"
                           {[ "subscription" := "0"; "message-id" := "007" ]}
                           "")]).
Proof.
  intros Hne Hw Hunknown nack.
  assert (∀ b0, b0 = "" →
            add (mkParser v S_command b0 fr len rd q) (w +:+ line_end +:+ rest)
            = raises (FrameError (InvalidCommand w))
                (mkParser v S_command "" fr len rd q)) as Hcommand.
  { intros b0 ->. rewrite add_app, add_command_text by done. unfold returns.
    cbn [add line_end String.append]. unfold parse at 1. cbn [_state].
    unfold _parseCommand. cbn [_buffer version].
    rewrite decide_False by (intros ?; done).
    rewrite decide_False by done.
    rewrite decide_True by done. reflexivity. }
  split; [|split; [|split]].
  - destruct w as [|c w]; [done|]. simpl in Hw.
    apply orb_false_iff in Hw as [Hc Hw]. apply bool_decide_eq_false in Hc.
    cbn [add String.append]. unfold parse at 1. cbn [_state].
    unfold _parseHeartBeat. rewrite decide_True by done.
    unfold _transition, _flush, with_state, with_buffer, _parseCommand; cbn.
    rewrite decide_True by done. unfold returns, with_buffer, write; cbn.
    rewrite add_app, add_command_text by done. unfold returns.
    cbn [add line_end String.append]. unfold parse at 1. cbn [_state].
    unfold _parseCommand. cbn [_buffer version].
    rewrite decide_False by (intros ?; done).
    rewrite decide_False by done.
    rewrite decide_True by done. reflexivity.
  - unfold line_end at 1. cbn [add String.append]. unfold parse at 1.
    cbn [_state]. unfold _parseCommand. cbn [_buffer].
    rewrite decide_False by (intros ?; done).
    rewrite decide_True by done. unfold returns. by apply Hcommand.
  - vm_compute. reflexivity.
  - vm_compute. reflexivity.
Qed.

(** C4 as stated fails: once an unknown command has been rejected the
    parser is in the command state with an empty buffer, and the empty
    command line that a line delimiter then ends, although no command of
    the version, is skipped without an exception. *)
Lemma empty_command_line_skipped :
  let p := (add (StompParser_new (Some VERSION_1_0)) ("NACK" +:+ line_end)).1 in
  _state p = S_command ∧ _buffer p = ""
  ∧ (_buffer p ∉ COMMANDS VERSION_1_0)
  ∧ parse p LINE_DELIMITER = returns p
  ∧ add p line_end = returns p.
Proof.
  cbv zeta. split; [|split; [|split; [|split]]]; try (vm_compute; reflexivity).
  apply (proj1 (bool_decide_eq_false _)). vm_compute. reflexivity.
Qed.

Lemma unknown_command_rejected_witness :
  add (StompParser_new (Some VERSION_1_0))
    ("FOO" +:+ line_end +:+ "a:b" +:+ line_end)
  = raises (FrameError (InvalidCommand "FOO"))
      (mkParser VERSION_1_0 S_command "" StompFrame_new (-1) 0 []).
Proof.
  refine (proj1 (unknown_command_rejected VERSION_1_0 "" StompFrame_new (-1) 0 []
                   "FOO" ("a:b" +:+ line_end) _ _ _)).
  - done.
  - reflexivity.
  - apply (proj1 (bool_decide_eq_false _)). vm_compute. reflexivity.
Defined.

(** C5: three line delimiters fed to a fresh parser queue exactly three
    heart-beat tokens when the version is 1.1 and nothing when it is 1.0,
    where [canRead] is false after each of them; either way the parser is
    in the heart-beat state afterwards. *)
Theorem heart_beat_tolerance :
  let three := line_end +:+ line_end +:+ line_end in
  (∃ p, add (StompParser_new (Some VERSION_1_1)) three = returns p
        ∧ _frames p = [StompHeartBeat; StompHeartBeat; StompHeartBeat]
        ∧ _state p = S_heart_beat)
  ∧ (∀ fed, fed ∈ [line_end; line_end +:+ line_end; three] →
       ∃ p, add (StompParser_new (Some VERSION_1_0)) fed = returns p
            ∧ _frames p = [] ∧ canRead p = false
            ∧ _state p = S_heart_beat).
Proof.
  cbv zeta. split.
  - eexists. split; [vm_compute; reflexivity|]. split; reflexivity.
  - intros fed Hfed. exists (StompParser_new (Some VERSION_1_0)).
    repeat (apply elem_of_cons in Hfed as [->|Hfed]);
      [..|by apply elem_of_nil in Hfed]; repeat split; vm_compute; reflexivity.
Qed.

(** C9: when [add] raises [StompFrameError] for an unknown command, the
    data splits at the line delimiter that ended the command line; the
    bytes before it were consumed without an exception, and whatever they
    had queued is still queued: [canRead] is true exactly when that queue
    is not empty, successive calls of [get] return its tokens first in,
    first out, and then [None]. The buffer, which held the offending
    command, is empty when the exception leaves [add]. *)
Theorem invalid_command_keeps_queue (p : StompParser) (data : string)
    (p' : StompParser) (c : string) :
  add p data = raises (FrameError (InvalidCommand c)) p' →
  ∃ before after p1,
    data = before +:+ String LINE_DELIMITER after
    ∧ add p before = returns p1
    ∧ _buffer p1 = c
    ∧ _buffer p' = ""
    ∧ _frames p' = _frames p1
    ∧ canRead p' = bool_decide (_frames p1 ≠ [])
    ∧ gets (length (_frames p1)) p' = (Some <$> _frames p1, with_frames [] p')
    ∧ get (with_frames [] p') = (None, with_frames [] p').
Proof.
  revert p. induction data as [|ch data IH]; intros p Hadd; [discriminate|].
  cbn [add] in Hadd. destruct (parse p ch) as [p1 [e|]] eqn:Hparse.
  - injection Hadd as -> ->.
    apply parse_invalid_command in Hparse as (-> & _ & Hc & _ & _ & ->).
    exists "", data, p. repeat split; try done.
    + unfold canRead, _flush; simpl. by destruct (_frames p).
    + by apply gets_all.
  - destruct (IH p1 Hadd) as (before & after & p2 & -> & Hbefore & Hrest).
    exists (String ch before), after, p2. split; [done|]. split; [|done].
    cbn [add]. by rewrite Hparse.
Qed.

Lemma invalid_command_keeps_queue_witness :
  let receipt := wire "RECEIPT" [("receipt-id", "message-12345")] "" in
  let nack := wire "NACK" [("subscription", "0"); ("message-id", "007")] "" in
  let p' := (add (StompParser_new (Some VERSION_1_0)) (receipt +:+ nack)).1 in
  ∃ before after p1,
    receipt +:+ nack = before +:+ String LINE_DELIMITER after
    ∧ add (StompParser_new (Some VERSION_1_0)) before = returns p1
    ∧ _buffer p1 = "NACK"
    ∧ _buffer p' = ""
    ∧ _frames p' = _frames p1
    ∧ canRead p' = bool_decide (_frames p1 ≠ [])
    ∧ gets (length (_frames p1)) p' = (Some <$> _frames p1, with_frames [] p')
    ∧ get (with_frames [] p') = (None, with_frames [] p').
Proof.
  intros receipt nack p'.
  apply (invalid_command_keeps_queue (StompParser_new (Some VERSION_1_0))).
  vm_compute. reflexivity.
Defined.

(** * Properties of the client *)

(** ** Substrings *)

Lemma startswith_spec (s needle : string) :
  startswith s needle = true ↔ ∃ b, s = needle +:+ b.
Proof.
  revert s. induction needle as [|a needle IH]; intros s; simpl.
  - destruct s; split; eauto.
  - destruct s as [|c s]; simpl.
    + split; [done|]. by intros [b ?].
    + rewrite andb_true_iff, bool_decide_eq_true, IH. split.
      * intros [-> [b ->]]. by exists b.
      * intros [b Hb]. injection Hb as -> ->. eauto.
Qed.

Lemma contains_spec (needle s : string) :
  contains needle s = true ↔ ∃ a b, s = a +:+ needle +:+ b.
Proof.
  induction s as [|c s IH].
  - cbn [contains]. rewrite orb_false_r, startswith_spec. split.
    + intros [b Hb]. by exists "", b.
    + intros (a & b & Hab). destruct a; [by exists b|done].
  - cbn [contains]. rewrite orb_true_iff, startswith_spec, IH. split.
    + intros [[b Hb]|(a & b & ->)]; [by exists "", b|by exists (String c a), b].
    + intros (a & b & Hab). destruct a as [|c' a]; [left; by exists b|].
      right. injection Hab as -> ->. eauto.
Qed.

(** ** The disconnect reason *)

Lemma set_disconnectReason_existing (c : Stomp) (r new : Error) :
  _disconnectReason c = Some r →
  _disconnectReason (set_disconnectReason (Some new) c) = Some r.
Proof. intros H. unfold set_disconnectReason; simpl. by rewrite H. Qed.

Lemma set_disconnectReason_first (c : Stomp) (new : Error) :
  _disconnectReason c = None →
  _disconnectReason (set_disconnectReason (Some new) c) = Some new.
Proof. intros H. unfold set_disconnectReason; simpl. by rewrite H. Qed.

Lemma set_disconnectReason_others (reason : option Error) (c : Stomp) :
  set_disconnectReason reason c
  = with_disconnectReason (_disconnectReason (set_disconnectReason reason c)) c.
Proof. by destruct reason. Qed.

Lemma assignments_keep_existing (c : Stomp) (r : Error) (later : list Error) :
  _disconnectReason c = Some r →
  _disconnectReason (foldl (λ c e, set_disconnectReason (Some e) c) c later)
  = Some r.
Proof.
  revert c. induction later as [|e later IH]; intros c H; simpl; [done|].
  apply IH. by apply set_disconnectReason_existing.
Qed.

Lemma assignments_keep_disconnected (c : Stomp) (later : list Error) :
  _disconnected (foldl (λ c e, set_disconnectReason (Some e) c) c later)
  = _disconnected c.
Proof.
  revert c. induction later as [|e later IH]; intros c; simpl; [done|].
  by rewrite IH.
Qed.

(** ** What [_disconnect] leaves alone *)

Ltac run_disconnect :=
  unfold _disconnect, sendFrame, set_disconnectReason;
  repeat (case_match || case_decide); simplify_eq/=; try done.

Lemma _disconnect_disconnecting c receipt failure timeout :
  _disconnecting (_disconnect c receipt failure timeout) = _disconnecting c.
Proof. run_disconnect. Qed.

Lemma _disconnect_connecting c receipt failure timeout :
  _connecting (_disconnect c receipt failure timeout) = _connecting c.
Proof. run_disconnect; destruct failure; simpl in *; simplify_eq/=; done. Qed.

Lemma _disconnect_protocol c receipt failure timeout :
  is_Some (_protocol c) →
  is_Some (_protocol (_disconnect c receipt failure timeout)).
Proof. intros [pr Hpr]. run_disconnect; destruct failure; simpl in *; simplify_eq/=; eauto. Qed.

Lemma _disconnect_reason c receipt (f : Error) timeout :
  _disconnectReason (_disconnect c receipt (Some f) timeout)
  = Some (default f (_disconnectReason c)).
Proof. run_disconnect; by destruct (_disconnectReason c). Qed.

(** ** The claims about the client *)

(** The registry of the negotiation has one key. *)
Lemma _connecting_left (operations : InFlightOperations ()) :
  delete () operations = ∅.
Proof.
  apply map_eq. intros []. by rewrite lookup_delete_eq, lookup_empty.
Qed.

(** C6, as the code has it. An ERROR frame reaches [_onError] through
    the protocol object, which the client holds. While the negotiation
    waiter is pending it is failed with a [StompProtocolError], and the
    [connect] that waits for it goes on with that failure before the
    handler returns: the negotiation is no longer pending, and a
    disconnect is started with that failure unless one is in flight (in
    which case [connect] ends and nothing else changes). Otherwise a
    frame whose [message] header contains the text about the unexpected
    ACK is swallowed, the client unchanged; and otherwise, with no
    disconnect in flight, a disconnect is started with a
    [StompProtocolError] as its failure. A disconnect that is started
    leaves the client disconnecting, the failure the recorded reason
    unless one was recorded before. *)
Theorem error_frame_dispatch (c : Stomp) (frame : StompFrame) :
  let message := default "" (headers frame !! "message") in
  let mentions_ack := ∃ a b, message = a +:+ UNEXPECTED_ACK +:+ b in
  let refused :=
    StompProtocolError "While trying to connect, received" (Some frame) in
  let failure := StompProtocolError "Received" (Some frame) in
  (_connecting c !! () = Some Waiting → is_Some (_protocol c) →
     errback refused Waiting = Some (ErredBack refused)
     ∧ ∃ c', _onError c frame = (c', None)
             ∧ c' = connect_failed refused c
             ∧ _connecting c' = ∅
             ∧ (_disconnecting c = false →
                c' = _disconnect (with_disconnecting true (with_connecting ∅ c))
                       None (Some refused) None
                ∧ _disconnecting c' = true
                ∧ _disconnectReason c'
                  = Some (default refused (_disconnectReason c)))
             ∧ (_disconnecting c = true →
                c' = with_running false (with_connecting ∅ c)))
  ∧ (_connecting c = ∅ → mentions_ack → _onError c frame = (c, None))
  ∧ (_connecting c = ∅ → ¬ mentions_ack →
     is_Some (_protocol c) → _disconnecting c = false →
     ∃ c', _onError c frame = (c', None)
           ∧ c' = _disconnect (with_disconnecting true c) None (Some failure) None
           ∧ _disconnecting c' = true
           ∧ _disconnectReason c' = Some (default failure (_disconnectReason c))).
Proof.
  intros message mentions_ack refused failure. split; [|split].
  - intros Hw [pr Hpr]. split; [done|]. unfold _onError. rewrite decide_True.
    2:{ intros Hempty. rewrite Hempty, lookup_empty in Hw. discriminate. }
    rewrite Hw. cbn [errback]. fold refused. eexists. split; [reflexivity|].
    split; [reflexivity|].
    unfold connect_failed, disconnect. cbn [_protocol with_connecting].
    rewrite Hpr, _connecting_left. cbn [_disconnecting with_connecting].
    destruct (_disconnecting c) eqn:Hdis.
    + split; [done|]. split; [done|]. intros _. reflexivity.
    + split; [by rewrite _disconnect_connecting|].
      split; [|done]. intros _. split; [reflexivity|].
      split; [by rewrite _disconnect_disconnecting|].
      by rewrite _disconnect_reason.
  - intros Hempty Hack. unfold _onError.
    rewrite decide_False by (intros H; by apply H).
    apply contains_spec in Hack. fold message. by rewrite Hack.
  - intros Hempty Hack [pr Hpr] Hdis. unfold _onError.
    rewrite decide_False by (intros H; by apply H).
    fold message. destruct (contains UNEXPECTED_ACK message) eqn:Hc.
    { apply contains_spec in Hc. by destruct Hack. }
    unfold disconnect. rewrite Hpr, Hdis. eexists. split; [reflexivity|].
    split; [reflexivity|]. split.
    + by rewrite _disconnect_disconnecting.
    + by rewrite _disconnect_reason.
Qed.

(** C6 as stated fails, in two ways. With a negotiation pending, an
    ERROR frame does more than fail the waiter: [connect] is resumed and
    starts a disconnect, after which the client is disconnecting, the
    failure is the recorded reason and the connection is being closed
    (unless a [disconnect] was called during the negotiation: then the
    frame starts nothing, and no reason is recorded). And with no
    negotiation pending, a first [disconnect] that waits for a handler
    in flight makes the ERROR frame start nothing: the call escapes with
    [StompAlreadyRunningError], the client is unchanged and no reason is
    recorded. *)
Lemma error_frame_dispatch_fails :
  let frame := mkFrame "ERROR" {[ "message" := "boom" ]} "" in
  let refused :=
    StompProtocolError "While trying to connect, received" (Some frame) in
  let negotiating :=
    mkStomp (StompSession.mk StompSession.CONNECTING [] ∅ ∅)
      (Some (mkProtocol [mkFrame "CONNECT" ∅ ""] false)) {[ () := Waiting ]}
      false ∅ ∅ [] (Some Waiting) None true in
  let leaving := (disconnect negotiating None None None).1 in
  let c0 := mkStomp (StompSession.mk StompSession.CONNECTED [] ∅ ∅)
              (Some (mkProtocol [] false)) ∅ false {[ "007" := Waiting ]} ∅ []
              (Some Waiting) None false in
  let c := with_disconnecting true c0 in
  (_onError negotiating frame
   = (mkStomp (StompSession.mk StompSession.CONNECTING [] ∅ ∅)
        (Some (mkProtocol [mkFrame "CONNECT" ∅ ""] true)) ∅
        true ∅ ∅ [] (Some Waiting) (Some refused) true, None)
   ∧ (_onError negotiating frame).1
     ≠ with_connecting {[ () := ErredBack refused ]} negotiating)
  ∧ (_connecting leaving !! () = Some Waiting
     ∧ _disconnecting leaving = true
     ∧ _onError leaving frame
       = (with_running false (with_connecting ∅ leaving), None)
     ∧ _disconnectReason (_onError leaving frame).1 = None)
  ∧ (disconnect c0 None None None = (c, None)
     ∧ _connecting c = ∅
     ∧ contains UNEXPECTED_ACK (default "" (headers frame !! "message")) = false
     ∧ _onError c frame
       = (c, Some (StompAlreadyRunningError "Already disconnecting"))
     ∧ _disconnecting c0 = false
     ∧ _disconnectReason c = None).
Proof.
  cbv zeta. repeat split; try (vm_compute; reflexivity).
  vm_compute. discriminate.
Qed.

Lemma error_frame_dispatch_witness :
  let connected := mkStomp (StompSession.mk StompSession.CONNECTED [] ∅ ∅)
                     (Some (mkProtocol [] false)) ∅ false ∅ ∅ []
                     (Some Waiting) None false in
  let negotiating :=
    mkStomp (StompSession.mk StompSession.CONNECTING [] ∅ ∅)
      (Some (mkProtocol [mkFrame "CONNECT" ∅ ""] false)) {[ () := Waiting ]}
      false ∅ ∅ [] (Some Waiting) None true in
  let boom := mkFrame "ERROR" {[ "message" := "boom" ]} "" in
  let ack := mkFrame "ERROR"
    {[ "message" := "Unexpected ACK received for message-id [ID:1]" ]} "" in
  (∃ c', _onError negotiating boom = (c', None)
         ∧ _connecting c' = ∅
         ∧ _disconnecting c' = true
         ∧ _disconnectReason c'
           = Some (StompProtocolError "While trying to connect, received"
                     (Some boom)))
  ∧ _onError connected ack = (connected, None)
  ∧ ∃ c', _onError connected boom = (c', None)
          ∧ c' = _disconnect (with_disconnecting true connected) None
                   (Some (StompProtocolError "Received" (Some boom))) None
          ∧ _disconnecting c' = true
          ∧ _disconnectReason c'
            = Some (default (StompProtocolError "Received" (Some boom))
                      (_disconnectReason connected)).
Proof.
  intros connected negotiating boom ack. split; [|split].
  - destruct (proj1 (error_frame_dispatch negotiating boom) eq_refl
                ltac:(by eexists))
      as (_ & c' & Hrun & _ & Hleft & Hstart & _).
    destruct (Hstart eq_refl) as (_ & Hdis & Hreason).
    exists c'. by repeat split.
  - apply (proj1 (proj2 (error_frame_dispatch connected ack))).
    + reflexivity.
    + exists "", " [ID:1]". reflexivity.
  - apply (proj2 (proj2 (error_frame_dispatch connected boom))).
    + reflexivity.
    + intros Hack. apply contains_spec in Hack. vm_compute in Hack. discriminate.
    + by eexists.
    + reflexivity.
Defined.

(** C7: on a connected client that is disconnecting, [disconnect] raises
    [StompAlreadyRunningError] and leaves the client as it was, no frame
    written; this is the state a first [disconnect] leaves. While a
    [connect] is in flight, [connect] raises [StompAlreadyRunningError]
    and leaves the client as it was; this is the state a [connect] that
    has to wait leaves. *)
Theorem command_exclusivity (c : Stomp) (receipt : option string)
    (failure : option Error) (timeout : option Q) :
  let already := StompAlreadyRunningError "Already disconnecting" in
  let running := StompAlreadyRunningError "connect still running" in
  (is_Some (_protocol c) → _disconnecting c = true →
     disconnect c receipt failure timeout = (c, Some already))
  ∧ (∀ c', disconnect c receipt failure timeout = (c', None) →
       _disconnecting c' = true
       ∧ ∀ receipt' failure' timeout',
           disconnect c' receipt' failure' timeout' = (c', Some already))
  ∧ (_running c = true → connect c = (c, inl running))
  ∧ (∀ c', connect c = (c', inr Waiting) →
       _running c' = true ∧ connect c' = (c', inl running)).
Proof.
  intros already running.
  assert (∀ c0, is_Some (_protocol c0) → _disconnecting c0 = true →
            ∀ r f t, disconnect c0 r f t = (c0, Some already)) as Hbusy.
  { intros c0 [pr Hpr] Hdis r f t. unfold disconnect. by rewrite Hpr, Hdis. }
  assert (∀ c0, _running c0 = true → connect c0 = (c0, inl running)) as Hrun.
  { intros c0 H. unfold connect, exclusive. by rewrite H. }
  split; [|split; [|split]].
  - intros Hpr Hdis. by apply Hbusy.
  - intros c' Hfirst. unfold disconnect in Hfirst.
    destruct (_protocol c) as [pr|] eqn:Hpr; [|discriminate].
    destruct (_disconnecting c); [discriminate|]. injection Hfirst as <-.
    assert (_disconnecting
              (_disconnect (with_disconnecting true c) receipt failure timeout)
            = true) as Hdis by by rewrite _disconnect_disconnecting.
    split; [done|]. intros r f t. apply Hbusy; [|done].
    apply _disconnect_protocol. simpl. by rewrite Hpr.
  - by apply Hrun.
  - intros c' Hfirst.
    assert (_running c' = true) as H; [|by auto].
    unfold connect, exclusive, connect_body in Hfirst.
    destruct (_running c); [discriminate|].
    repeat case_match; simplify_eq/=; done.
Qed.

Lemma command_exclusivity_witness :
  let connected := mkStomp (StompSession.mk StompSession.CONNECTED [] ∅ ∅)
                     (Some (mkProtocol [] false)) ∅ false ∅ ∅ []
                     (Some Waiting) None false in
  let fresh := mkStomp (StompSession.mk StompSession.DISCONNECTED [] ∅ ∅)
                 None ∅ false ∅ ∅ [] None None false in
  let disconnecting := (disconnect connected (Some "r1") None None).1 in
  let connecting := (connect fresh).1 in
  written <$> _protocol disconnecting
    = Some [mkFrame "DISCONNECT" {[ "receipt" := "r1" ]} ""]
  ∧ disconnect disconnecting None None None
    = (disconnecting, Some (StompAlreadyRunningError "Already disconnecting"))
  ∧ connect connecting
    = (connecting, inl (StompAlreadyRunningError "connect still running")).
Proof.
  intros connected fresh disconnecting connecting. split; [reflexivity|]. split.
  - apply (proj1 (command_exclusivity disconnecting None None None)).
    + by eexists.
    + reflexivity.
  - apply (proj1 (proj2 (proj2 (command_exclusivity connecting None None None)))).
    reflexivity.
Defined.

(** ** Heart-beats *)

(** With a period the time left is never negative, and it is zero
    exactly when the threshold is used up. *)
Lemma python_max_zero (x : float) :
  (python_max x 0 <? 0)%float = false
  ∧ (python_max x 0 =? 0)%float = orb (x <? 0)%float (x =? 0)%float.
Proof.
  unfold python_max. destruct (x <? 0)%float eqn:H; [by split|].
  by rewrite H.
Qed.

(** C8, as the code has it. For either direction with a period other
    than 0, [_beatRemaining] is the greater of 0 and the threshold times
    the period over 1000, less the time since [lastSent] (client) or
    [lastReceived] (server), in binary64 arithmetic; it is never
    negative, and it is 0 exactly when that difference is negative or 0.
    With a period of 0, [_beat] cancels the timer of the direction and
    returns: nothing is sent, no disconnect is started, nothing is
    scheduled. With a period, on a client that has its
    protocol object (the session forgets the periods when the
    connection is lost), the client direction sends a heart-beat exactly
    when the time left is 0, and schedules the next call; the server
    direction with no time left, and no disconnect in flight, starts a
    disconnect with the [StompConnectionError] for the timeout. Either
    direction with time left schedules the next call after just that
    time. *)
Theorem heart_beat_timer (thresholds : Which → float) (session : Beats)
    (now stamp again : float) (which : Which) (c : Stomp) :
  let period :=
    match which with
    | client => clientHeartBeat session
    | server => serverHeartBeat session
    end in
  let last :=
    match which with
    | client => lastSent session
    | server => lastReceived session
    end in
  let remaining := _beatRemaining thresholds session now which in
  let timers := filter (λ k, k ≠ key which) (_heartBeats c) in
  let stopped := with_heartBeats timers c in
  let scheduled := with_heartBeats (key which :: timers) c in
  let result := _beat thresholds session (now, stamp, again) which c in
  let timeout := StompConnectionError "Server heart-beat timeout" in
  let spare :=
    (thresholds which * float_of_int period / 1000.0 - (now - last))%float in
  (period ≠ 0 →
     remaining = python_max spare 0%float
     ∧ (remaining <? 0)%float = false
     ∧ (remaining =? 0)%float = orb (spare <? 0)%float (spare =? 0)%float)
  ∧ (period = 0 → result = (stopped, session, Off))
  ∧ (period ≠ 0 → which = client → is_Some (_protocol c) →
     ((remaining =? 0)%float = true →
        result
        = (scheduled, sent stamp session,
           Sent (_beatRemaining thresholds (sent stamp session) again client)))
     ∧ ((remaining =? 0)%float = false →
        result = (scheduled, session, Scheduled remaining)))
  ∧ (period ≠ 0 → which = server →
     ((remaining =? 0)%float = true →
        is_Some (_protocol c) → _disconnecting c = false →
        ∃ c', result = (c', session, TimedOut None)
              ∧ c' = _disconnect (with_disconnecting true stopped) None
                       (Some timeout) None
              ∧ _disconnecting c' = true
              ∧ _disconnectReason c'
                = Some (default timeout (_disconnectReason c)))
     ∧ ((remaining =? 0)%float = false →
        result = (scheduled, session, Scheduled remaining))).
Proof.
  intros period last remaining timers stopped scheduled result timeout spare.
  assert (period ≠ 0 → remaining = python_max spare 0%float) as Hformula.
  { intros Hp. unfold remaining, _beatRemaining. fold period last.
    by rewrite decide_False. }
  assert (period ≠ 0 → (remaining <? 0)%float = false) as Hpositive.
  { intros Hp. rewrite (Hformula Hp). apply python_max_zero. }
  split.
  { intros Hp. split; [by auto|]. split; [by auto|].
    rewrite (Hformula Hp). apply python_max_zero. }
  split; [|split].
  - intros Hp. unfold result, _beat. fold timers stopped.
    replace (_beatRemaining thresholds session now which) with (-1)%float.
    + reflexivity.
    + unfold _beatRemaining. fold period. by rewrite decide_True.
  - intros Hp -> [pr Hpr]. unfold result, _beat. fold remaining.
    rewrite (Hpositive Hp). cbn [_protocol with_heartBeats]. rewrite Hpr.
    split; intros ->; reflexivity.
  - intros Hp ->. unfold result, _beat. fold remaining.
    rewrite (Hpositive Hp). split; [|by intros ->].
    intros -> [pr Hpr] Hdis. unfold disconnect.
    cbn [_protocol _disconnecting with_heartBeats]. rewrite Hpr, Hdis.
    eexists. split; [reflexivity|]. split; [reflexivity|]. split.
    + by rewrite _disconnect_disconnecting.
    + by rewrite _disconnect_reason.
Qed.

(** C8 as stated fails: a first [disconnect] that waits for a handler
    in flight is still under way when the server has been silent for
    twice its period; the timer of the server direction finds no time
    left, but its call of [disconnect] escapes with
    [StompAlreadyRunningError]: no disconnect is started, the client is
    as it was but for the timer, and the timeout is not recorded as the
    reason. *)
Lemma server_timeout_while_disconnecting :
  let c0 := mkStomp (StompSession.mk StompSession.CONNECTED [] ∅ ∅)
              (Some (mkProtocol [] false)) ∅ false {[ "007" := Waiting ]} ∅
              ["server"] (Some Waiting) None false in
  let c := (disconnect c0 None None None).1 in
  let session := mkBeats 0 1000 100 100 in
  let result :=
    _beat DEFAULT_HEART_BEAT_THRESHOLDS session (105, 105, 105)%float server c in
  c = with_disconnecting true c0
  ∧ serverHeartBeat session ≠ 0
  ∧ _beatRemaining DEFAULT_HEART_BEAT_THRESHOLDS session 105 server = 0%float
  ∧ result
    = (with_heartBeats [] c, session,
       TimedOut (Some (StompAlreadyRunningError "Already disconnecting")))
  ∧ _disconnectReason result.1.1 = None.
Proof.
  cbv zeta. repeat split; try (vm_compute; reflexivity).
  vm_compute. discriminate.
Qed.

Lemma heart_beat_timer_witness :
  let connected := mkStomp (StompSession.mk StompSession.CONNECTED [] ∅ ∅)
                     (Some (mkProtocol [] false)) ∅ false ∅ ∅
                     ["client"; "server"] (Some Waiting) None false in
  let session := mkBeats 1000 0 100 100 in
  let silent := mkBeats 0 1000 100 100 in
  let thresholds := DEFAULT_HEART_BEAT_THRESHOLDS in
  _beatRemaining thresholds session 100.5 client = 0.30000000000000004%float
  ∧ _beat thresholds session (100.5, 100.5, 100.5)%float server connected
    = (with_heartBeats ["client"] connected, session, Off)
  ∧ _beat thresholds session (101, 101.25, 101.5)%float client connected
    = (with_heartBeats ["client"; "server"] connected, sent 101.25 session,
       Sent 0.55000000000000004)
  ∧ _beat thresholds session (100.5, 100.5, 100.5)%float client connected
    = (with_heartBeats ["client"; "server"] connected, session,
       Scheduled 0.30000000000000004)
  ∧ ∃ c', _beat thresholds silent (103, 103, 103)%float server connected
          = (c', silent, TimedOut None)
          ∧ _disconnecting c' = true
          ∧ _disconnectReason c'
            = Some (StompConnectionError "Server heart-beat timeout").
Proof.
  intros connected session silent thresholds.
  split; [|split; [|split; [|split]]].
  - etrans; [exact (proj1 (proj1 (heart_beat_timer thresholds session
                                     100.5 100.5 100.5 client connected)
                             ltac:(done)))|].
    vm_compute. reflexivity.
  - etrans; [exact (proj1 (proj2 (heart_beat_timer thresholds session
                                     100.5 100.5 100.5 server connected))
                      eq_refl)|].
    vm_compute. reflexivity.
  - etrans; [exact (proj1 (proj1 (proj2 (proj2
                      (heart_beat_timer thresholds session 101 101.25 101.5
                         client connected)))
                      ltac:(done) eq_refl ltac:(by eexists)) eq_refl)|].
    vm_compute. reflexivity.
  - etrans; [exact (proj2 (proj1 (proj2 (proj2
                      (heart_beat_timer thresholds session 100.5 100.5 100.5
                         client connected)))
                      ltac:(done) eq_refl ltac:(by eexists)) eq_refl)|].
    vm_compute. reflexivity.
  - destruct (proj1 (proj2 (proj2 (proj2
                (heart_beat_timer thresholds silent 103 103 103
                   server connected)))
                ltac:(done) eq_refl) eq_refl ltac:(by eexists) eq_refl)
      as (c' & Hresult & _ & Hdis & Hreason).
    exists c'. split; [exact Hresult|]. split; [exact Hdis|exact Hreason].
Defined.

(** ** When the connection is lost *)

Lemma assignments_keep_fields (c : Stomp) (rs : list Error) :
  foldl (λ c e, set_disconnectReason (Some e) c) c rs
  = with_disconnectReason
      (_disconnectReason
         (foldl (λ c e, set_disconnectReason (Some e) c) c rs)) c.
Proof.
  revert c. induction rs as [|e rs IH]; intros c; simpl.
  - by destruct c.
  - rewrite IH at 1. by destruct c.
Qed.

Lemma assignments_first (c : Stomp) (rs : list Error) :
  _disconnectReason (foldl (λ c e, set_disconnectReason (Some e) c) c rs)
  = match _disconnectReason c with
    | Some r => Some r
    | None => head rs
    end.
Proof.
  destruct (_disconnectReason c) as [r|] eqn:Hr.
  - by apply assignments_keep_existing.
  - destruct rs as [|e rs]; simpl; [done|].
    apply assignments_keep_existing. by apply set_disconnectReason_first.
Qed.

(** The client after [_onConnectionLost], when the deferred
    [disconnected] was waiting. *)
Lemma _onConnectionLost_waiting (c : Stomp) (lost : string)
    (resumed : list Error) :
  _disconnected c = Some Waiting →
  let loss := StompConnectionError
                ("Unexpected connection loss [" +:+ lost +:+ "]") in
  let known := if _disconnecting c then _disconnectReason c
               else Some (default loss (_disconnectReason c)) in
  let final := match known with Some r => Some r | None => head resumed end in
  let negotiating := bool_decide (_connecting c !! () = Some Waiting) in
  _onConnectionLost c lost resumed
  = (mkStomp (StompSession.close (bool_decide (known = None)) (_session c))
       None (if negotiating then ∅ else _connecting c) false
       (cancel <$> _messages c) (cancel_receipts (_receipts c)) [] None None
       false,
     Fired (match final with Some r => ErredBack r | None => CalledBack end)).
Proof.
  intros Hd loss known final negotiating. unfold _onConnectionLost.
  set (c1 := with_protocol None c).
  set (c2 := if negb (_disconnecting c1) then _ else c1).
  assert (_disconnectReason c2 = known ∧ c2 = with_disconnectReason known c1)
    as [Hk Hc2].
  { unfold c2, known. cbn. destruct (_disconnecting c); cbn.
    - split; [done|]. by destruct c.
    - by destruct (_disconnectReason c). }
  rewrite Hc2. clear c2 Hk Hc2.
  set (c3 := with_heartBeats [] _).
  set (c4 := match _connecting c3 !! () with Some Waiting => _ | _ => c3 end).
  assert (c4 = mkStomp
                 (StompSession.close (bool_decide (known = None)) (_session c))
                 None (if negotiating then ∅ else _connecting c)
                 (_disconnecting c) (_messages c) (_receipts c) []
                 (_disconnected c) known
                 (if negotiating then false else _running c)) as ->.
  { unfold c4, negotiating. change (_connecting c3) with (_connecting c).
    destruct (_connecting c !! ()) as [[]|] eqn:Hw.
    - rewrite (bool_decide_eq_true_2 (_ = Some Waiting)) by done.
      unfold connect_failed, disconnect. cbn. by rewrite _connecting_left.
    - by rewrite (bool_decide_eq_false_2 (_ = Some Waiting)) by done.
    - by rewrite (bool_decide_eq_false_2 (_ = Some Waiting)) by done.
    - by rewrite (bool_decide_eq_false_2 (_ = Some Waiting)) by done. }
  set (c5 := with_receipts _ _).
  rewrite (assignments_keep_fields c5 resumed), assignments_first.
  unfold c5; cbn. fold final. rewrite Hd. by destruct final.
Qed.

(** C10: once a reason is recorded, assigning further failures leaves it
    in place, whatever they are and however many; when the connection is
    then lost the deferred [disconnected] errs back with that first
    reason, also when the waiters cancelled on the way assign reasons of
    their own; assigning [None] clears the reason, which is what the end
    of [_onConnectionLost] does. *)
Theorem first_disconnect_reason_wins (c : Stomp) (first : Error)
    (later resumed : list Error) (lost : string) :
  _disconnectReason c = None →
  _disconnected c = Some Waiting →
  let assign := λ c e, set_disconnectReason (Some e) c in
  let c1 := assign c first in
  let c2 := foldl assign c1 later in
  _disconnectReason c1 = Some first
  ∧ (∀ e, assign c1 e = c1)
  ∧ _disconnectReason c2 = Some first
  ∧ (_onConnectionLost c2 lost resumed).2 = Fired (ErredBack first)
  ∧ _disconnectReason (set_disconnectReason None c2) = None
  ∧ _disconnectReason (_onConnectionLost c2 lost resumed).1 = None.
Proof.
  intros Hnone Hwaiting assign c1 c2.
  assert (_disconnectReason c1 = Some first) as H1
    by by apply set_disconnectReason_first.
  assert (_disconnectReason c2 = Some first) as H2
    by by apply assignments_keep_existing.
  assert (_disconnected c2 = Some Waiting) as Hd2.
  { unfold c2. by rewrite assignments_keep_disconnected. }
  split; [done|]. split.
  { intros e. unfold assign at 1, set_disconnectReason. rewrite H1.
    unfold c1, assign, set_disconnectReason, with_disconnectReason; simpl.
    by rewrite Hnone. }
  split; [done|].
  rewrite _onConnectionLost_waiting by done. rewrite H2. cbn.
  by destruct (_disconnecting c2).
Qed.

Lemma first_disconnect_reason_wins_witness :
  let connected := mkStomp (StompSession.mk StompSession.CONNECTED [] ∅ ∅)
                     (Some (mkProtocol [] false)) ∅ true ∅ ∅ []
                     (Some Waiting) None false in
  let first := StompCancelledError "Handlers did not finish in time." in
  let second := StompCancelledError
                  "Receipt for disconnect command did not arrive on time." in
  let c2 := set_disconnectReason (Some second)
              (set_disconnectReason (Some first) connected) in
  _disconnectReason c2 = Some first
  ∧ (_onConnectionLost c2 "closed" []).2 = Fired (ErredBack first).
Proof.
  intros connected first second c2.
  destruct (first_disconnect_reason_wins connected first [second] [] "closed")
    as (_ & _ & H2 & H3 & _); [reflexivity|reflexivity|].
  split; [exact H2|exact H3].
Defined.

(** * Further properties of the parser *)

(** ** The queue and the parsing state are independent *)

Lemma with_frames_own (p : StompParser) : with_frames (_frames p) p = p.
Proof. by destruct p. Qed.

Lemma with_frames_twice (q q' : list Token) (p : StompParser) :
  with_frames q (with_frames q' p) = with_frames q p.
Proof. done. Qed.

(** One character adds at most one token at the end of the queue, and
    does the same to the other fields whatever is queued. *)
Lemma parse_queue (p : StompParser) (c : ascii) :
  ∃ new, ∀ q,
    parse (with_frames q p) c
    = (with_frames (q ++ new) (parse p c).1, (parse p c).2).
Proof.
  destruct p as [v st b fr len rd q0].
  unfold parse, _parseHeartBeat, _parseCommand, _parseHeader, _parseBody,
    returns, raises; cbn.
  destruct st; cbn.
  - case_decide.
    + exists []. intros q. rewrite List.app_nil_r.
      by repeat (case_decide; cbn).
    + case_decide; [exists [StompHeartBeat]|exists []]; intros q; cbn;
        by rewrite ?List.app_nil_r.
  - exists []. intros q. rewrite List.app_nil_r.
    by repeat (case_decide; cbn).
  - exists []. intros q. rewrite List.app_nil_r.
    by repeat (case_decide || case_match; cbn).
  - case_decide; [exists []|eexists [_]]; intros q; cbn;
      by rewrite ?List.app_nil_r.
Qed.

Lemma add_queue (p : StompParser) (data : string) :
  ∃ new, ∀ q,
    add (with_frames q p) data
    = (with_frames (q ++ new) (add p data).1, (add p data).2).
Proof.
  revert p. induction data as [|c data IH]; intros p.
  - exists []. intros q. cbn. by rewrite List.app_nil_r.
  - destruct (parse_queue p c) as [new1 H1].
    destruct (parse p c) as [p1 [e|]] eqn:Hp; cbn [fst snd] in H1.
    + exists new1. intros q. cbn [add]. by rewrite H1, Hp.
    + destruct (IH p1) as [new2 H2]. exists (new1 ++ new2). intros q.
      cbn [add]. rewrite H1, Hp, H2. by rewrite List.app_assoc.
Qed.

(** X1. However the bytes are cut into chunks, feeding the chunks one
    [add] call each leaves the same parser and raises the same exception,
    if any, as any other way of cutting the same bytes. *)
Theorem chunking_is_immaterial (p : StompParser) (chunks chunks' : list string) :
  join chunks = join chunks' →
  add_chunks p chunks = add_chunks p chunks'.
Proof. intros H. by rewrite !add_chunks_join, H. Qed.

Lemma chunking_is_immaterial_witness :
  add_chunks (StompParser_new None) ["NA"; "CK" +:+ line_end; "x:y"]
  = add_chunks (StompParser_new None) ["N"; "ACK"; line_end +:+ "x"; ":y"].
Proof. by apply chunking_is_immaterial. Defined.

Lemma add_queue_grows (p : StompParser) (data : string) :
  ∃ new, _frames (add p data).1 = _frames p ++ new.
Proof.
  destruct (add_queue p data) as [new H]. exists new.
  specialize (H (_frames p)). rewrite with_frames_own in H.
  by rewrite H.
Qed.

(** X2. [add] never removes or reorders what is queued, also when it
    raises: the queue after the call is the queue before it followed by
    the tokens the data completed, and these tokens do not depend on
    what was queued. *)
Theorem add_extends_queue (p : StompParser) (data : string) :
  ∃ new, _frames (add p data).1 = _frames p ++ new
         ∧ ∀ q, _frames (add (with_frames q p) data).1 = q ++ new.
Proof.
  destruct (add_queue p data) as [new H]. exists new. split.
  - specialize (H (_frames p)). rewrite with_frames_own in H. by rewrite H.
  - intros q. by rewrite H.
Qed.

(** X3. Reading and feeding commute: when a token is queued, taking it
    before more data is added or after gives the same token, the same
    parser and the same exception, if any. *)
Theorem get_commutes_with_add (p : StompParser) (data : string) :
  canRead p = true →
  (get p).1 = (get (add p data).1).1
  ∧ add (get p).2 data = ((get (add p data).1).2, (add p data).2).
Proof.
  intros Hread. destruct (add_queue p data) as [new H].
  unfold canRead in Hread. destruct (_frames p) as [|t q] eqn:Hq; [done|].
  pose proof (H (t :: q)) as Hall. rewrite <- Hq, with_frames_own in Hall.
  assert (get p = (Some t, with_frames q p)) as ->.
  { unfold get, canRead. by rewrite Hq. }
  assert (get (add p data).1
          = (Some t, with_frames (q ++ new) (add p data).1)) as ->.
  { assert (_frames (add p data).1 = t :: q ++ new) as Hfr.
    { apply (f_equal (λ r, _frames r.1)) in Hall. cbn in Hall.
      by rewrite Hq in Hall. }
    unfold get, canRead. by rewrite Hfr. }
  split; [done|]. cbn [fst snd]. apply H.
Qed.

Lemma get_commutes_with_add_witness :
  let p := (add (StompParser_new (Some VERSION_1_1))
              (line_end +:+ "SEND" +:+ line_end)).1 in
  (get p).1 = (get (add p "a:b").1).1
  ∧ add (get p).2 "a:b" = ((get (add p "a:b").1).2, (add p "a:b").2).
Proof. intros p. by apply get_commutes_with_add. Defined.

(** ** Version and reset *)

Lemma parse_version (p : StompParser) (c : ascii) :
  version (parse p c).1 = version p.
Proof.
  unfold parse, _parseHeartBeat, _parseCommand, _parseHeader, _parseBody.
  destruct (_state p); repeat (case_decide || case_match); done.
Qed.

Lemma add_version (p : StompParser) (data : string) :
  version (add p data).1 = version p.
Proof.
  revert p. induction data as [|c data IH]; intros p; [done|].
  cbn [add]. pose proof (parse_version p c) as Hv.
  destruct (parse p c) as [p1 [e|]]; [done|]. by rewrite IH.
Qed.

(** X4. Whatever was fed to a parser, also data that made it raise, and
    whatever is still queued, [reset] leaves the parser a new parser of
    the same version is. *)
Theorem reset_forgets_everything (p : StompParser) (data : string) :
  reset (add p data).1 = StompParser_new (Some (version p)).
Proof.
  rewrite <- (add_version p data). by destruct (add p data).1.
Qed.

(** ** Line delimiters between frames *)

(** X5. In the heart-beat state [n] line delimiters are worth [n]
    heart-beat tokens to a parser of version 1.1 and nothing to a parser
    of version 1.0, and the parser goes on with what follows them as if
    it had just been reset. *)
Theorem line_delimiters_between_frames (v : Version) (q : list Token)
    (n : nat) (rest : string) :
  add (idle v q) (line_ends n +:+ rest)
  = add (idle v (q ++ heart_beats v n)) rest.
Proof.
  revert q. unfold heart_beats.
  induction n as [|n IH]; intros q.
  - cbn. case_decide; by rewrite List.app_nil_r.
  - cbn [line_ends String.append add]. unfold parse at 1. cbn [_state idle].
    unfold _parseHeartBeat. rewrite decide_False by (intros H; by apply H).
    change (version (idle v q)) with v.
    destruct (decide (v ≠ VERSION_1_0)) as [Hv|Hv].
    + transitivity (add (idle v ((q ++ [StompHeartBeat])
                                   ++ replicate n StompHeartBeat)) rest);
        [exact (IH _)|by rewrite <- List.app_assoc].
    + exact (IH _).
Qed.

(** ** What a parser can hold and queue *)

Lemma split1_spec (sep : ascii) (s name value : string) :
  split1 sep s = Some (name, value) →
  s = name +:+ String sep value ∧ occurs sep name = false.
Proof.
  revert name. induction s as [|c s IH]; intros name; simpl; [done|].
  case_decide as Hc.
  - intros [= <- <-]. by subst c.
  - destruct (split1 sep s) as [[n x]|]; [|done].
    intros [= <- <-]. destruct (IH n eq_refl) as [-> Hn]. split; [done|].
    simpl. rewrite Hn. by rewrite bool_decide_eq_false_2.
Qed.

Lemma split1_none (sep : ascii) (s : string) :
  occurs sep s = false → split1 sep s = None.
Proof.
  induction s as [|c s IH]; simpl; [done|].
  intros [Hc Hs]%orb_false_iff. apply bool_decide_eq_false in Hc.
  rewrite decide_False by done. by rewrite IH.
Qed.

(** One character keeps the fields consistent and the queue well
    formed, whether it is accepted or makes [parse] raise. *)
Lemma parse_consistent (p : StompParser) (c : ascii) :
  consistent p → Forall (token_ok (version p)) (_frames p) →
  consistent (parse p c).1
  ∧ Forall (token_ok (version (parse p c).1)) (_frames (parse p c).1).
Proof.
  destruct p as [v st b fr len rd q]. unfold consistent; cbn.
  intros Hp Hq. unfold parse; cbn. destruct st; cbn in Hp.
  - destruct Hp as (-> & -> & -> & ->).
    unfold _parseHeartBeat, _parseCommand, returns; cbn.
    case_decide as Hc; cbn.
    + split; [|done].
      rewrite bool_decide_eq_false_2 by done. done.
    + case_decide; cbn; (split; [done|]); try done.
      apply Forall_app. split; [done|]. by apply Forall_singleton.
  - destruct Hp as (Hb & -> & -> & ->).
    unfold _parseCommand, returns, raises; cbn.
    repeat case_decide; cbn; (split; [|done]).
    + rewrite occurs_app, Hb. cbn. by rewrite bool_decide_eq_false_2.
    + done.
    + done.
    + repeat split; done.
  - destruct Hp as (Hb & [Hcmd Hhs] & Hbody & -> & ->).
    unfold _parseHeader, returns, raises; cbn.
    case_decide as Hc; cbn.
    { split; [|done]. rewrite occurs_app, Hb. cbn.
      by rewrite bool_decide_eq_false_2. }
    case_decide as Hne; cbn.
    + destruct (split1 HEADER_SEPARATOR b) as [[name value]|] eqn:Hsplit; cbn.
      * split; [|done]. apply split1_spec in Hsplit as [-> Hname].
        rewrite occurs_app in Hb. cbn [occurs] in Hb.
        apply orb_false_iff in Hb as [Hb1 [_ Hb2]%orb_false_iff].
        repeat split; try done.
        apply map_Forall_insert_2; [|done].
        unfold valid_header; cbn. by rewrite Hb1, Hname, Hb2.
      * done.
    + unfold content_length. repeat case_match; cbn; try done;
        repeat split; try done; unfold content_length; by simplify_option_eq.
  - destruct Hp as ([Hcmd Hhs] & Hbody & Hlen & ->).
    unfold _parseBody, returns; cbn. case_decide; cbn.
    + split; [|done]. repeat split; try done. rewrite append_length. cbn. lia.
    + split; [done|]. apply Forall_app. split; [done|].
      apply Forall_singleton. split; [done|]. exists len. split; [done|].
      cbn. destruct (decide (c = FRAME_DELIMITER)); [lia|]. tauto.
Qed.

Lemma add_consistent (p : StompParser) (data : string) :
  consistent p → Forall (token_ok (version p)) (_frames p) →
  consistent (add p data).1
  ∧ Forall (token_ok (version (add p data).1)) (_frames (add p data).1).
Proof.
  revert p. induction data as [|c data IH]; intros p Hp Hq; [done|].
  cbn [add]. destruct (parse_consistent p c Hp Hq) as [Hp1 Hq1].
  destruct (parse p c) as [p1 [e|]]; [done|]. by apply IH.
Qed.

(** X6. Whatever is fed to a new parser, also when an [add] raises,
    every frame it queues has a command of the parser's version, headers
    whose names hold no separator and no line delimiter and whose values
    hold no line delimiter, and a body at least as long as its
    [content-length], if it has one, says; heart-beat tokens are queued
    by no parser of version 1.0; and in the body state the counter
    [_read] is the number of characters buffered. *)
Theorem queued_tokens_are_well_formed (v : option Version) (data : string) :
  let p := (add (StompParser_new v) data).1 in
  Forall (token_ok (default DEFAULT_VERSION v)) (_frames p)
  ∧ consistent p
  ∧ (_state p = S_body → _read p = Z.of_nat (String.length (_buffer p))).
Proof.
  intros p.
  destruct (add_consistent (StompParser_new v) data) as [Hp Hq].
  { by unfold consistent. }
  { by apply Forall_nil. }
  fold p in Hp, Hq. split; [|split; [done|]].
  - unfold p in *. by rewrite add_version in Hq.
  - intros Hbody. unfold consistent in Hp. rewrite Hbody in Hp. tauto.
Qed.

(** ** Frames are queued at their delimiter, not before *)

Lemma append_eq_snoc (a b c : string) (x : ascii) :
  a +:+ b = c +:+ String x "" → b ≠ "" →
  ∃ b', b = b' +:+ String x "" ∧ c = a +:+ b'.
Proof.
  revert c. induction a as [|y a IH]; intros c H Hb; cbn in H.
  - subst b. revert Hb. clear. induction c as [|z c IH]; intros _.
    + by exists "".
    + by exists (String z c).
  - destruct c as [|z c]; cbn in H.
    + injection H as -> H. destruct a; [|done]. cbn in H. by subst b.
    + injection H as -> H. destruct (IH c H Hb) as (b' & -> & ->).
      by exists b'.
Qed.

(** A character other than the line delimiter that leaves the parser in
    the heart-beat state has completed a frame. *)
Lemma parse_to_heart_beat (p p' : StompParser) (c : ascii) :
  parse p c = returns p' → _state p' = S_heart_beat → c ≠ LINE_DELIMITER →
  ∃ f, _frames p' = _frames p ++ [Frame f].
Proof.
  destruct p as [v st b fr len rd q].
  unfold parse, _parseHeartBeat, _parseCommand, _parseHeader, _parseBody,
    returns, raises; cbn.
  intros Hparse Hstate Hc.
  destruct st; repeat (case_decide || case_match); simplify_eq/=; eauto.
Qed.

(** X7. No frame is queued before its delimiter has arrived: after any
    part of the wire form of a valid frame that stops short of its end,
    [add] has returned and the queue is what it was. *)
Theorem no_frame_before_its_delimiter (v : Version) (q : list Token)
    (cmd : string) (l : list (string * string)) (b pre post : string) :
  cmd ∈ COMMANDS v →
  forallb valid_header l = true →
  valid_body (stored l) b = true →
  wire cmd l b = pre +:+ post →
  post ≠ "" →
  ∃ p, add (idle v q) pre = returns p ∧ _frames p = q
       ∧ add p post = returns (idle v (q ++ [Frame (mkFrame cmd (stored l) b)])).
Proof.
  intros Hcmd Hl Hb Hcut Hpost.
  pose proof (add_wire v q cmd l b "" Hcmd Hl Hb) as Hall.
  rewrite append_nil_r in Hall. cbn [add] in Hall.
  assert (∃ post', post = post' +:+ frame_end) as [post' ->].
  { unfold wire in Hcut. rewrite <- !append_assoc in Hcut. symmetry in Hcut.
    destruct (append_eq_snoc _ _ _ _ Hcut Hpost) as (post' & -> & _). eauto. }
  rewrite Hcut, add_app in Hall.
  destruct (add (idle v q) pre) as [p1 [e|]] eqn:Hpre; [done|].
  exists p1. split; [done|]. split; [|done].
  rewrite add_app in Hall.
  destruct (add p1 post') as [p2 [e|]] eqn:Hpost'; [done|].
  unfold frame_end in Hall. cbn [add] in Hall.
  destruct (parse p2 FRAME_DELIMITER) as [p3 [e|]] eqn:Hlast; [done|].
  injection Hall as ->.
  destruct (parse_to_heart_beat _ _ _ Hlast eq_refl) as [f Hf]; [done|].
  cbn in Hf. apply app_inj_tail in Hf as [Hq2 _].
  destruct (add_queue_grows (idle v q) pre) as [new1 H1].
  destruct (add_queue_grows p1 post') as [new2 H2].
  rewrite Hpre in H1. rewrite Hpost' in H2. cbn in H1, H2.
  rewrite H1, <- Hq2, <- List.app_assoc in H2.
  rewrite <- (List.app_nil_r q) in H2 at 1.
  apply app_inv_head in H2. symmetry in H2.
  apply app_eq_nil in H2 as [-> _]. by rewrite List.app_nil_r in H1.
Qed.

Lemma no_frame_before_its_delimiter_witness :
  ∃ p, add (idle VERSION_1_0 []) ("SEND" +:+ line_end +:+ "a:b" +:+ line_end
                                  +:+ line_end +:+ "hel")
       = returns p
     ∧ _frames p = []
     ∧ add p ("lo" +:+ frame_end)
       = returns (idle VERSION_1_0
                    ([] ++ [Frame (mkFrame "SEND" (stored [("a", "b")]) "hello")])).
Proof.
  apply (no_frame_before_its_delimiter VERSION_1_0 [] "SEND" [("a", "b")]
           "hello").
  - by vm_compute.
  - reflexivity.
  - reflexivity.
  - reflexivity.
  - done.
Defined.

(** ** Lines the header state rejects *)

(** X8. A header line without a separator makes [add] raise
    [StompFrameError] for that line, but the line is not discarded: it
    stays in the buffer, and the next header line is stored under a name
    that starts with it. *)
Theorem header_without_separator_is_kept (v : Version) (fr : StompFrame)
    (len rd : Z) (q : list Token) (w : string) (h : string * string)
    (unread : string) :
  w ≠ "" →
  occurs LINE_DELIMITER w = false →
  occurs HEADER_SEPARATOR w = false →
  valid_header h = true →
  let stuck := mkParser v S_headers w fr len rd q in
  add (mkParser v S_headers "" fr len rd q) (w +:+ line_end +:+ unread)
    = raises (FrameError (NoSeparator w)) stuck
  ∧ add stuck (header_line h)
    = returns (mkParser v S_headers ""
                 (mkFrame (command fr) (<[w +:+ h.1 := h.2]> (headers fr))
                    (body fr)) len rd q).
Proof.
  intros Hne Hnl Hsep (Hn & Hs & Hv)%valid_header_inv stuck. split.
  - rewrite add_app, add_headers_text by done. unfold returns.
    cbn [add line_end String.append]. unfold parse at 1. cbn [_state].
    unfold _parseHeader. cbn [_buffer].
    rewrite decide_False by (intros ?; done).
    rewrite decide_True by done.
    by rewrite split1_none.
  - rewrite <- (append_nil_r (header_line h)).
    rewrite header_line_split, add_app. unfold stuck.
    rewrite add_headers_text.
    2:{ rewrite occurs_app. simpl. by rewrite Hn, Hv. }
    unfold returns. cbn [add]. unfold parse at 1. cbn [_state].
    unfold _parseHeader. cbn [_buffer].
    rewrite decide_False by (intros ?; done).
    rewrite <- append_assoc.
    rewrite decide_True by apply app_cons_ne_nil.
    rewrite split1_app; [done|]. rewrite occurs_app. by rewrite Hsep, Hs.
Qed.

Lemma header_without_separator_is_kept_witness :
  let stuck := mkParser VERSION_1_0 S_headers "oops" StompFrame_new (-1) 0 [] in
  add (mkParser VERSION_1_0 S_headers "" StompFrame_new (-1) 0 [])
    ("oops" +:+ line_end +:+ "a:b")
    = raises (FrameError (NoSeparator "oops")) stuck
  ∧ add stuck (header_line ("a", "b"))
    = returns (mkParser VERSION_1_0 S_headers ""
                 (mkFrame "" (<["oops" +:+ "a" := "b"]> ∅) "") (-1) 0 []).
Proof.
  by apply (header_without_separator_is_kept VERSION_1_0 StompFrame_new (-1) 0
              [] "oops" ("a", "b") "a:b").
Defined.

(** ** After an unknown command *)

(** X9. The parser recovers from an unknown command at the next line:
    [add] raises at the end of the command line and leaves what follows
    it unread; a valid frame added afterwards is parsed and queued behind
    what was queued before. *)
Theorem recovery_after_unknown_command (v : Version) (q : list Token)
    (w unread cmd : string) (l : list (string * string)) (b : string) :
  w ≠ "" →
  occurs LINE_DELIMITER w = false →
  w ∉ COMMANDS v →
  cmd ∈ COMMANDS v →
  forallb valid_header l = true →
  valid_body (stored l) b = true →
  ∃ p, add (idle v q) (w +:+ line_end +:+ unread)
       = raises (FrameError (InvalidCommand w)) p
     ∧ add p (wire cmd l b)
       = returns (idle v (q ++ [Frame (mkFrame cmd (stored l) b)])).
Proof.
  intros Hne Hw Hunknown Hcmd Hl Hb.
  exists (mkParser v S_command "" StompFrame_new (-1) 0 q). split.
  - destruct w as [|c w]; [done|]. simpl in Hw.
    apply orb_false_iff in Hw as [Hc Hw]. apply bool_decide_eq_false in Hc.
    cbn [add String.append]. unfold parse at 1. cbn [_state idle].
    unfold _parseHeartBeat. rewrite decide_True by done.
    unfold _transition, _flush, with_state, with_buffer, _parseCommand; cbn.
    rewrite decide_True by done. unfold returns, with_buffer, write; cbn.
    rewrite add_app, add_command_text by done. unfold returns.
    cbn [add line_end String.append]. unfold parse at 1. cbn [_state].
    unfold _parseCommand. cbn [_buffer version].
    rewrite decide_False by (intros ?; done).
    rewrite decide_False by done.
    rewrite decide_True by done. reflexivity.
  - destruct (command_shape _ _ Hcmd) as (c & cw & Hshape & Hc & Hcw).
    assert (occurs LINE_DELIMITER cmd = false) as Hnl.
    { subst cmd. simpl. rewrite Hcw. by rewrite bool_decide_eq_false_2. }
    assert (cmd ≠ "") as Hcne by by subst cmd.
    unfold wire. rewrite add_app, add_command_text by done. unfold returns.
    cbn [add line_end String.append]. unfold parse at 1. cbn [_state].
    unfold _parseCommand. cbn [_buffer version].
    rewrite decide_False by (intros ?; done).
    rewrite decide_False by done.
    rewrite decide_False by (intros H; by apply H).
    unfold returns, _transition, _flush, with_state, with_buffer, with_frame.
    cbn [version _state _buffer _frame _length _read _frames headers body].
    rewrite add_header_lines by done. cbn [headers body StompFrame_new].
    fold (stored l).
    assert (∃ n, content_length (stored l) = Some n) as [n Hn].
    { unfold content_length, valid_body in *.
      destruct (stored l !! CONTENT_LENGTH_HEADER); [|by eauto].
      apply bool_decide_eq_true in Hb. eauto. }
    change (String LINE_DELIMITER (b +:+ frame_end))
      with (line_end +:+ b +:+ frame_end).
    rewrite (add_empty_line _ _ _ _ _ n) by done.
    rewrite <- (append_nil_r frame_end). by rewrite add_body.
Qed.

Lemma recovery_after_unknown_command_witness :
  ∃ p, add (idle VERSION_1_0 [])
         ("NACK" +:+ line_end +:+ "subscription:0" +:+ line_end)
       = raises (FrameError (InvalidCommand "NACK")) p
     ∧ add p (wire "ACK" [("message-id", "007")] "")
       = returns (idle VERSION_1_0
                    ([] ++ [Frame (mkFrame "ACK"
                                     (stored [("message-id", "007")]) "")])).
Proof.
  apply (recovery_after_unknown_command VERSION_1_0 [] "NACK"
           ("subscription:0" +:+ line_end) "ACK" [("message-id", "007")] "").
  - done.
  - reflexivity.
  - apply (proj1 (bool_decide_eq_false _)). vm_compute. reflexivity.
  - by vm_compute.
  - reflexivity.
  - reflexivity.
Defined.

(** ** The two versions *)

Lemma commands_grow (cmd : string) :
  cmd ∈ COMMANDS VERSION_1_0 → cmd ∈ COMMANDS VERSION_1_1.
Proof.
  rewrite !COMMANDS_elements.
  unfold CLIENT_COMMANDS_created, SERVER_COMMANDS_created.
  rewrite !elem_of_union, !elem_of_singleton. tauto.
Qed.

Lemma frames_only_app (q q' : list Token) :
  frames_only (q ++ q') = frames_only q ++ frames_only q'.
Proof.
  induction q as [|[f|] q IH]; simpl; [done| |done]. by rewrite IH.
Qed.

(** The parser of version 1.0 that goes with a parser of version 1.1:
    the same fields, the heart-beat tokens left out of the queue. *)
Lemma parse_both_versions (p1 p0' : StompParser) (c : ascii) :
  version p1 = VERSION_1_1 →
  parse (mkParser VERSION_1_0 (_state p1) (_buffer p1) (_frame p1)
           (_length p1) (_read p1) (frames_only (_frames p1))) c
    = returns p0' →
  ∃ p1', parse p1 c = returns p1'
         ∧ version p1' = VERSION_1_1
         ∧ p0' = mkParser VERSION_1_0 (_state p1') (_buffer p1') (_frame p1')
                   (_length p1') (_read p1') (frames_only (_frames p1')).
Proof.
  destruct p1 as [v st b fr len rd q]. cbn. intros ->.
  unfold parse, _parseHeartBeat, _parseCommand, _parseHeader, _parseBody,
    returns, raises; cbn.
  destruct st; cbn.
  - case_decide; cbn.
    + intros [= <-]. eexists. split; [done|]. by split.
    + rewrite decide_False by (intros H'; by apply H').
      rewrite decide_True by done.
      intros [= <-]. eexists. split; [done|]. split; [done|]. cbn.
      by rewrite frames_only_app, List.app_nil_r.
  - case_decide; cbn.
    + intros [= <-]. eexists. split; [done|]. by split.
    + case_decide; cbn.
      * intros [= <-]. eexists. split; [done|]. by split.
      * case_decide as Hin; [done|].
        intros [= <-]. rewrite decide_False.
        -- eexists. split; [done|]. by split.
        -- intros Hnot. apply Hnot. by apply commands_grow.
  - repeat (case_decide || case_match); cbn; try done;
      intros [= <-]; eexists; (split; [done|]); by split.
  - case_decide; cbn; intros [= <-]; eexists; (split; [done|]);
      (split; [done|]); cbn; [done|].
    by rewrite frames_only_app.
Qed.

(** X10. What a parser of version 1.0 accepts, a parser of version 1.1
    accepts too, with the same frames in the same order and the same
    frame in progress; the queue of the 1.1 parser holds, besides, one
    heart-beat token for every line delimiter between frames. *)
Theorem version_1_1_accepts_what_1_0_accepts (data : string)
    (p0 : StompParser) :
  add (StompParser_new (Some VERSION_1_0)) data = returns p0 →
  ∃ p1, add (StompParser_new (Some VERSION_1_1)) data = returns p1
        ∧ _frames p0 = frames_only (_frames p1)
        ∧ _state p0 = _state p1 ∧ _buffer p0 = _buffer p1
        ∧ _frame p0 = _frame p1.
Proof.
  assert (∀ data p1 p0',
            version p1 = VERSION_1_1 →
            add (mkParser VERSION_1_0 (_state p1) (_buffer p1) (_frame p1)
                   (_length p1) (_read p1) (frames_only (_frames p1))) data
              = returns p0' →
            ∃ p1', add p1 data = returns p1'
                   ∧ p0' = mkParser VERSION_1_0 (_state p1') (_buffer p1')
                             (_frame p1') (_length p1') (_read p1')
                             (frames_only (_frames p1'))) as Hsim.
  { clear. induction data as [|c data IH]; intros p1 p0' Hv Hadd.
    - injection Hadd as <-. by exists p1.
    - cbn [add] in Hadd |- *.
      destruct (parse (mkParser VERSION_1_0 _ _ _ _ _ _) c)
        as [p0m [e|]] eqn:Hstep; [done|].
      destruct (parse_both_versions _ _ _ Hv Hstep) as (p1m & -> & Hvm & ->).
      by apply IH. }
  intros Hadd.
  destruct (Hsim data (StompParser_new (Some VERSION_1_1)) p0 eq_refl Hadd)
    as (p1 & Hp1 & ->).
  by exists p1.
Qed.

Lemma version_1_1_accepts_what_1_0_accepts_witness :
  let data := line_end +:+ wire "SEND" [("a", "b")] "x" +:+ line_end +:+ "ACK" in
  ∃ p1, add (StompParser_new (Some VERSION_1_1)) data = returns p1
        ∧ _frames (add (StompParser_new (Some VERSION_1_0)) data).1
          = frames_only (_frames p1)
        ∧ _state (add (StompParser_new (Some VERSION_1_0)) data).1 = _state p1
        ∧ _buffer (add (StompParser_new (Some VERSION_1_0)) data).1 = _buffer p1
        ∧ _frame (add (StompParser_new (Some VERSION_1_0)) data).1 = _frame p1.
Proof.
  intros data.
  apply (version_1_1_accepts_what_1_0_accepts data). vm_compute. reflexivity.
Defined.

(** ** A [content-length] that announces nothing *)

(** X11. A [content-length] header whose value is zero or negative is
    accepted and protects nothing: the body is the text up to the first
    frame delimiter, as without the header. *)
Theorem content_length_not_positive (v : Version) (fr : StompFrame)
    (len : Z) (q : list Token) (literal : string) (n : Z)
    (text rest : string) :
  headers fr !! CONTENT_LENGTH_HEADER = Some literal →
  int literal = Some n →
  n ≤ 0 →
  occurs FRAME_DELIMITER text = false →
  add (mkParser v S_headers "" fr len 0 q)
    (line_end +:+ text +:+ frame_end +:+ rest)
  = add (idle v (q ++ [Frame (mkFrame (command fr) (headers fr) text)])) rest.
Proof.
  intros Hcl Hint Hn Htext.
  rewrite (add_empty_line _ _ _ _ _ n).
  2:{ unfold content_length. by rewrite Hcl. }
  rewrite add_app, add_body_text by done. unfold returns.
  rewrite add_body_end by lia. done.
Qed.

Lemma content_length_not_positive_witness :
  add (mkParser VERSION_1_1 S_headers ""
         (mkFrame "SEND" {[ "content-length" := "-5" ]} "") (-1) 0 [])
    (line_end +:+ "ab" +:+ frame_end +:+ "")
  = add (idle VERSION_1_1
           ([] ++ [Frame (mkFrame "SEND" {[ "content-length" := "-5" ]} "ab")]))
      "".
Proof.
  refine (content_length_not_positive VERSION_1_1
            (mkFrame "SEND" {[ "content-length" := "-5" ]} "") (-1) [] "-5" (-5)
            "ab" "" _ _ _ _); [reflexivity|reflexivity|lia|reflexivity].
Defined.

(** ** What [add] cannot do *)

(** X18. An exception ends [add]: what follows the offending character
    in the same call is never read, so the parser and the exception are
    the same whatever follows. *)
Theorem exception_ends_add (p p' : StompParser) (e : Exception)
    (data unread : string) :
  add p data = raises e p' →
  add p (data +:+ unread) = raises e p'.
Proof. intros H. by rewrite add_app, H. Qed.

Lemma exception_ends_add_witness :
  add (StompParser_new None) (("NACK" +:+ line_end) +:+ "subscription:0")
  = raises (FrameError (InvalidCommand "NACK"))
      (mkParser VERSION_1_0 S_command "" StompFrame_new (-1) 0 []).
Proof. apply exception_ends_add. vm_compute. reflexivity. Defined.

(** What one character can add to the queue: nothing, a heart-beat
    token for a line delimiter, or a frame for a frame delimiter. *)
Lemma parse_emits (p : StompParser) (c : ascii) :
  ∃ new, _frames (parse p c).1 = _frames p ++ new
         ∧ (new = []
            ∨ (new = [StompHeartBeat] ∧ c = LINE_DELIMITER)
            ∨ (∃ f, new = [Frame f]) ∧ c = FRAME_DELIMITER).
Proof.
  destruct p as [v st b fr len rd q].
  unfold parse, _parseHeartBeat, _parseCommand, _parseHeader, _parseBody,
    returns, raises; cbn.
  destruct st; cbn.
  - repeat (case_decide; cbn);
      try (exists []; rewrite List.app_nil_r; by auto).
    exists [StompHeartBeat]. auto.
  - repeat (case_decide; cbn); exists []; rewrite List.app_nil_r; by auto.
  - repeat (case_decide || case_match; cbn); exists [];
      rewrite List.app_nil_r; by auto.
  - case_decide as Hc; cbn.
    + exists []. rewrite List.app_nil_r. by auto.
    + eexists [_]. split; [done|]. right; right. split; [by eexists|].
      destruct (decide (c = FRAME_DELIMITER)); [done|]. destruct Hc. by right.
Qed.

Lemma frames_only_length (q : list Token) :
  (length (frames_only q) ≤ length q)%nat.
Proof. induction q as [|[f|] q IH]; simpl; lia. Qed.

(** X19. [add] queues no more frames than the data holds frame
    delimiters, and no more heart-beat tokens than it holds line
    delimiters. *)
Theorem tokens_need_delimiters (p : StompParser) (data : string) :
  ∃ new, _frames (add p data).1 = _frames p ++ new
         ∧ (length (frames_only new) ≤ count FRAME_DELIMITER data)%nat
         ∧ (length new - length (frames_only new)
            ≤ count LINE_DELIMITER data)%nat.
Proof.
  revert p. induction data as [|c data IH]; intros p.
  - exists []. cbn. rewrite List.app_nil_r. split; [done|]. split; lia.
  - cbn [add]. destruct (parse_emits p c) as (new1 & H1 & Hkind).
    assert ((length (frames_only new1)
             ≤ if decide (c = FRAME_DELIMITER) then 1 else 0)%nat
            ∧ (length new1 - length (frames_only new1)
               ≤ if decide (c = LINE_DELIMITER) then 1 else 0)%nat) as [Hf Hh].
    { destruct Hkind as [->|[[-> ->]|[[f ->] ->]]]; cbn; split; try lia;
        rewrite ?decide_True by done; lia. }
    destruct (parse p c) as [p1 [e|]] eqn:Hp; cbn [fst] in H1.
    + exists new1. split; [done|]. cbn [count]. split; lia.
    + destruct (IH p1) as (new2 & H2 & Hf2 & Hh2).
      exists (new1 ++ new2). rewrite H2, H1, List.app_assoc.
      split; [done|]. rewrite frames_only_app, !length_app. cbn [count].
      pose proof (frames_only_length new1). pose proof (frames_only_length new2).
      split; lia.
Qed.

(** ** The command tables *)

(** X20. The commands of version 1.1 are those of version 1.0 and, in
    addition, NACK and STOMP, neither of which version 1.0 knows. The
    loop that completes [COMMANDS] with the server commands writes
    through the sets that [CLIENT_COMMANDS] holds as well: after the
    class body [CLIENT_COMMANDS] and [COMMANDS] have the same commands
    for every version, the four server commands among them, and
    [SERVER_COMMANDS] is as its literal has it. *)
Theorem commands_of_the_versions (cmd : string) :
  (cmd ∈ COMMANDS VERSION_1_1
   ↔ cmd ∈ COMMANDS VERSION_1_0 ∨ cmd = NACK ∨ cmd = STOMP)
  ∧ (NACK ∉ COMMANDS VERSION_1_0) ∧ (STOMP ∉ COMMANDS VERSION_1_0)
  ∧ (∀ v, CLIENT_COMMANDS v = COMMANDS v)
  ∧ (∀ v, COMMANDS v = CLIENT_COMMANDS_created v ∪ SERVER_COMMANDS v)
  ∧ (∀ v, SERVER_COMMANDS v = {[ CONNECTED; ERROR; MESSAGE; RECEIPT ]})
  ∧ (∀ v, SERVER_COMMANDS v ⊆ CLIENT_COMMANDS v)
  ∧ (∀ v, CLIENT_COMMANDS v ≠ CLIENT_COMMANDS_created v).
Proof.
  assert (∀ v, SERVER_COMMANDS v = SERVER_COMMANDS_created v) as Hserver
    by by intros [].
  split; [|split; [|split; [|split; [|split; [|split; [|split]]]]]].
  - rewrite !COMMANDS_elements.
    unfold CLIENT_COMMANDS_created, SERVER_COMMANDS_created.
    rewrite !elem_of_union, !elem_of_singleton. tauto.
  - apply (proj1 (bool_decide_eq_false _)). vm_compute. reflexivity.
  - apply (proj1 (bool_decide_eq_false _)). vm_compute. reflexivity.
  - reflexivity.
  - intros v. by rewrite Hserver, COMMANDS_elements.
  - intros v. rewrite Hserver. by destruct v.
  - intros v cmd'. change (CLIENT_COMMANDS v) with (COMMANDS v).
    rewrite Hserver, COMMANDS_elements, elem_of_union. tauto.
  - intros v H.
    assert (CONNECTED ∈ CLIENT_COMMANDS_created v) as Hin.
    { rewrite <- H. change (CLIENT_COMMANDS v) with (COMMANDS v).
      rewrite COMMANDS_elements, elem_of_union. right.
      destruct v; by vm_compute. }
    revert Hin. apply (proj1 (bool_decide_eq_false _)).
    destruct v; vm_compute; reflexivity.
Qed.

(** * Further properties of the client *)

(** ** The end of a connection *)

(** X12. When the connection is lost without a disconnect in flight,
    [disconnected] errs back with a [StompConnectionError] for the
    unexpected loss (or with a reason recorded earlier), whatever the
    cancelled waiters do, and the session is closed without being
    flushed, so that its subscriptions can be replayed. *)
Theorem unexpected_connection_loss (c : Stomp) (lost : string)
    (resumed : list Error) :
  _disconnecting c = false →
  _disconnected c = Some Waiting →
  let loss := StompConnectionError
                ("Unexpected connection loss [" +:+ lost +:+ "]") in
  (_onConnectionLost c lost resumed).2
    = Fired (ErredBack (default loss (_disconnectReason c)))
  ∧ _session (_onConnectionLost c lost resumed).1
    = StompSession.close false (_session c)
  ∧ StompSession.subscriptions (_session (_onConnectionLost c lost resumed).1)
    = StompSession.subscriptions (_session c).
Proof.
  intros Hdis Hd loss. rewrite _onConnectionLost_waiting by done.
  rewrite Hdis. cbn. by destruct (_disconnectReason c).
Qed.

Lemma unexpected_connection_loss_witness :
  let c := mkStomp (StompSession.mk StompSession.CONNECTED ["/queue/a"] ∅ ∅)
             (Some (mkProtocol [] false)) ∅ false ∅ {[ "r1" := Waiting ]} []
             (Some Waiting) None false in
  (_onConnectionLost c "reset by peer" []).2
    = Fired (ErredBack (StompConnectionError
                          "Unexpected connection loss [reset by peer]"))
  ∧ StompSession.subscriptions
      (_session (_onConnectionLost c "reset by peer" []).1)
    = ["/queue/a"].
Proof.
  intros c.
  destruct (unexpected_connection_loss c "reset by peer" [])
    as (H1 & _ & H3); [reflexivity|reflexivity|].
  split; [exact H1|exact H3].
Defined.

(** X13. When the connection is lost during a disconnect,
    [disconnected] is called back if no reason was recorded and no
    cancelled waiter supplies one, and errs back with the first reason
    otherwise; the session is flushed exactly when no reason was recorded
    before the waiters are cancelled. *)
Theorem connection_lost_while_disconnecting (c : Stomp) (lost : string)
    (resumed : list Error) :
  _disconnecting c = true →
  _disconnected c = Some Waiting →
  let final := match _disconnectReason c with
               | Some r => Some r
               | None => head resumed
               end in
  (_onConnectionLost c lost resumed).2
    = Fired (match final with Some r => ErredBack r | None => CalledBack end)
  ∧ _session (_onConnectionLost c lost resumed).1
    = StompSession.close (bool_decide (_disconnectReason c = None)) (_session c).
Proof.
  intros Hdis Hd final. rewrite _onConnectionLost_waiting by done.
  by rewrite Hdis.
Qed.

Lemma connection_lost_while_disconnecting_witness :
  let c := mkStomp (StompSession.mk StompSession.DISCONNECTING ["/queue/a"] ∅ ∅)
             (Some (mkProtocol [] true)) ∅ true ∅ ∅ []
             (Some Waiting) None false in
  (_onConnectionLost c "closed cleanly" []).2 = Fired CalledBack
  ∧ _session (_onConnectionLost c "closed cleanly" []).1
    = StompSession.close true (_session c).
Proof.
  intros c.
  by apply (connection_lost_while_disconnecting c "closed cleanly" []).
Defined.

(** X14. After [_onConnectionLost] no operation is left waiting. A
    negotiation or a receipt that was pending is gone from its registry,
    and what had fired there is as it was; a waiter that is still in the
    registry of the messages has fired, with [StompCancelledError] if it
    had not fired before; and the client is back where a new client
    starts: no protocol, not disconnecting, no reason, no heart-beat
    timer. *)
Theorem connection_lost_cancels_everything (c : Stomp) (lost : string)
    (resumed : list Error) :
  _disconnected c = Some Waiting →
  let c' := (_onConnectionLost c lost resumed).1 in
  let remains (before : option Deferred) :=
    if decide (before = Some Waiting) then None else before in
  (_protocol c' = None ∧ _disconnecting c' = false
   ∧ _disconnectReason c' = None ∧ _disconnected c' = None
   ∧ _heartBeats c' = [])
  ∧ (∀ k, _connecting c' !! k = remains (_connecting c !! k))
  ∧ (∀ k, _receipts c' !! k = remains (_receipts c !! k))
  ∧ (∀ k d, _messages c' !! k = Some d →
       ∃ d0, _messages c !! k = Some d0
             ∧ d = if decide (d0 = Waiting) then ErredBack cancelled else d0)
  ∧ (∀ k, _connecting c' !! k ≠ Some Waiting)
  ∧ (∀ k, _messages c' !! k ≠ Some Waiting)
  ∧ (∀ k, _receipts c' !! k ≠ Some Waiting).
Proof.
  intros Hd c' remains. unfold c'.
  rewrite _onConnectionLost_waiting by done. cbn.
  assert (∀ k, (if bool_decide (_connecting c !! () = Some Waiting)
                then ∅ else _connecting c) !! k
               = remains (_connecting c !! k)) as Hconnecting.
  { intros []. unfold remains. case_bool_decide as Hw.
    - by rewrite Hw, lookup_empty, decide_True.
    - by rewrite decide_False. }
  assert (∀ k, cancel_receipts (_receipts c) !! k = remains (_receipts c !! k))
    as Hreceipts.
  { intros k. unfold cancel_receipts, remains.
    destruct (_receipts c !! k) as [d|] eqn:Hk.
    - destruct (decide (d = Waiting)) as [->|Hd'].
      + rewrite decide_True by done. apply map_lookup_filter_None. right.
        intros d' Hk'. cbn. rewrite Hk in Hk'. injection Hk' as <-. by intros H.
      + rewrite decide_False by congruence.
        by apply map_lookup_filter_Some.
    - rewrite decide_False by done. apply map_lookup_filter_None. by left. }
  assert (∀ before, remains before ≠ Some Waiting) as Hleft.
  { intros before. unfold remains.
    by destruct (decide (before = Some Waiting)). }
  split; [done|].
  split; [done|]. split; [done|]. split.
  { intros k d. rewrite lookup_fmap.
    destruct (_messages c !! k) as [d0|]; cbn; [|done].
    intros [= <-]. exists d0. split; [done|]. by destruct d0. }
  split; [intros k; by rewrite Hconnecting|]. split.
  - intros k. rewrite lookup_fmap. by destruct (_messages c !! k) as [[]|].
  - intros k. by rewrite Hreceipts.
Qed.

Lemma connection_lost_cancels_everything_witness :
  let c := mkStomp (StompSession.mk StompSession.CONNECTED [] ∅ ∅)
             (Some (mkProtocol [] false)) ∅ false {[ "007" := Waiting ]}
             {[ "r1" := Waiting; "r0" := CalledBack ]} ["client"]
             (Some Waiting) None false in
  let c' := (_onConnectionLost c "reset" []).1 in
  _receipts c' !! "r0" = Some CalledBack
  ∧ _receipts c' !! "r1" = None
  ∧ _messages c' !! "007" ≠ Some Waiting.
Proof.
  intros c c'.
  destruct (connection_lost_cancels_everything c "reset" [])
    as (_ & _ & H3 & _ & _ & H6 & _); [reflexivity|].
  split; [|split].
  - etrans; [exact (H3 "r0")|reflexivity].
  - etrans; [exact (H3 "r1")|reflexivity].
  - exact (H6 "007").
Defined.

(** X15. Once the connection is lost the commands that need it refuse:
    [disconnect] and [sendFrame] raise [StompConnectionError] and leave
    the client as it is, whatever state the loss found it in. *)
Theorem no_command_after_connection_lost (c : Stomp) (lost : string)
    (resumed : list Error) :
  let c' := (_onConnectionLost c lost resumed).1 in
  let refused := StompConnectionError "Not connected" in
  (∀ receipt failure timeout,
     disconnect c' receipt failure timeout = (c', Some refused))
  ∧ (∀ frame, sendFrame frame c' = (c', Some refused)).
Proof.
  intros c' refused.
  assert (_protocol c' = None) as Hpr.
  { unfold c', _onConnectionLost.
    set (c1 := with_protocol None c).
    set (c2 := if negb (_disconnecting c1) then _ else c1).
    assert (_protocol c2 = None) as H2.
    { unfold c2. by destruct (negb (_disconnecting c1)). }
    set (c3 := with_heartBeats [] _).
    assert (_protocol c3 = None) as H3 by done.
    set (c4 := match _connecting c3 !! () with Some Waiting => _ | _ => c3 end).
    assert (_protocol c4 = None) as H4.
    { unfold c4. destruct (_connecting c3 !! ()) as [[]|]; try done.
      unfold connect_failed, disconnect. cbn [_protocol with_connecting].
      by rewrite H3. }
    set (c5 := with_receipts _ _).
    set (c6 := foldl _ c5 resumed).
    assert (_protocol c6 = None) as H6.
    { unfold c6. rewrite assignments_keep_fields. done. }
    repeat case_match; cbn; done. }
  split.
  - intros r f t. unfold disconnect. by rewrite Hpr.
  - intros frame. unfold sendFrame. by rewrite Hpr.
Qed.

(** ** [disconnect] and the transport *)

(** X16. A first [disconnect] on a connected client leaves the protocol
    object alone while message handlers are in flight; otherwise it
    writes at most one frame, a DISCONNECT frame that carries the receipt
    asked for, and it closes the connection only when there is no handler
    and no receipt to wait for. *)
Theorem disconnect_and_the_transport (c : Stomp) (pr : Protocol)
    (receipt : option string) (failure : option Error) (timeout : option Q) :
  _protocol c = Some pr →
  _disconnecting c = false →
  ∃ pr', _protocol (disconnect c receipt failure timeout).1 = Some pr'
    ∧ (_messages c ≠ ∅ → pr' = pr)
    ∧ (written pr' = written pr
       ∨ ∃ frame, written pr' = written pr ++ [frame]
                  ∧ command frame = DISCONNECT
                  ∧ headers frame !! RECEIPT_HEADER = receipt
                  ∧ body frame = "")
    ∧ (closing pr' = true →
       closing pr = true
       ∨ (_messages c = ∅
          ∧ (receipt = None
             ∨ StompSession.state (_session c) ≠ StompSession.CONNECTED))).
Proof.
  intros Hpr Hdis. unfold disconnect. rewrite Hpr, Hdis. cbn [fst].
  unfold _disconnect, sendFrame, set_disconnectReason, StompSession.disconnect.
  destruct failure as [f|], receipt as [r|]; cbn; rewrite Hpr; cbn;
    repeat (case_decide; cbn); rewrite ?Hpr; cbn;
    eexists; (split; [reflexivity|]); cbn;
    (split; [by intros|]); (split; [|by intros; auto]);
    (by left) || (right; eexists; split; [reflexivity|]; cbn;
                  by rewrite ?lookup_insert_eq, ?lookup_empty).
Qed.

Lemma disconnect_and_the_transport_witness :
  let busy := mkStomp (StompSession.mk StompSession.CONNECTED [] ∅ ∅)
                (Some (mkProtocol [] false)) ∅ false {[ "007" := Waiting ]} ∅
                [] (Some Waiting) None false in
  let quiet := with_messages ∅ busy in
  _protocol (disconnect busy (Some "r1") None None).1
    = Some (mkProtocol [] false)
  ∧ _protocol (disconnect quiet None None None).1
    = Some (mkProtocol [mkFrame "DISCONNECT" ∅ ""] true).
Proof.
  intros busy quiet. split.
  - destruct (disconnect_and_the_transport busy (mkProtocol [] false)
                (Some "r1") None None) as (pr' & -> & Hsame & _);
      [reflexivity|reflexivity|].
    f_equal. apply Hsame. vm_compute. discriminate.
  - reflexivity.
Defined.

(** ** From [disconnect] to the lost connection *)

Lemma _disconnect_disconnected c receipt failure timeout :
  _disconnected (_disconnect c receipt failure timeout) = _disconnected c.
Proof.
  unfold _disconnect, sendFrame, set_disconnectReason.
  destruct failure, receipt; cbn; repeat (case_match || case_decide);
    simplify_eq/=; done.
Qed.

Lemma _disconnect_no_reason c receipt timeout :
  _disconnectReason c = None →
  _disconnectReason (_disconnect c receipt None timeout) = None.
Proof.
  intros H. unfold _disconnect, sendFrame, set_disconnectReason.
  destruct receipt; cbn; repeat (case_match || case_decide);
    simplify_eq/=; done.
Qed.

(** X17. A disconnect from start to end: on a connected client with no
    disconnect in flight, after [disconnect] and the loss of the
    connection that follows, [disconnected] errs back with the failure
    that was passed to [disconnect]; without one it errs back with the
    first reason that a cancelled waiter supplies, and it is called back
    if there is none. The client is then neither connected nor
    disconnecting. *)
Theorem disconnect_to_the_end (c : Stomp) (receipt : option string)
    (failure : option Error) (timeout : option Q) (lost : string)
    (resumed : list Error) :
  is_Some (_protocol c) →
  _disconnecting c = false →
  _disconnectReason c = None →
  _disconnected c = Some Waiting →
  let c1 := (disconnect c receipt failure timeout).1 in
  let final := match failure with Some f => Some f | None => head resumed end in
  (_onConnectionLost c1 lost resumed).2
    = Fired (match final with Some r => ErredBack r | None => CalledBack end)
  ∧ _protocol (_onConnectionLost c1 lost resumed).1 = None
  ∧ _disconnecting (_onConnectionLost c1 lost resumed).1 = false.
Proof.
  intros [pr Hpr] Hdis Hnone Hd c1 final.
  assert (c1 = _disconnect (with_disconnecting true c) receipt failure timeout)
    as Hc1.
  { unfold c1, disconnect. by rewrite Hpr, Hdis. }
  assert (_disconnecting c1 = true) as Hdis1.
  { by rewrite Hc1, _disconnect_disconnecting. }
  assert (_disconnected c1 = Some Waiting) as Hd1.
  { by rewrite Hc1, _disconnect_disconnected. }
  assert (_disconnectReason c1 = failure) as Hr1.
  { rewrite Hc1. destruct failure as [f|].
    - rewrite _disconnect_reason. cbn. by rewrite Hnone.
    - by apply _disconnect_no_reason. }
  rewrite _onConnectionLost_waiting by done. rewrite Hdis1, Hr1. cbn.
  by destruct failure.
Qed.

Lemma disconnect_to_the_end_witness :
  let c := mkStomp (StompSession.mk StompSession.CONNECTED [] ∅ ∅)
             (Some (mkProtocol [] false)) ∅ false ∅ ∅ []
             (Some Waiting) None false in
  let timeout := StompCancelledError "Handlers did not finish in time." in
  (_onConnectionLost (disconnect c None None None).1 "closed" []).2
    = Fired CalledBack
  ∧ (_onConnectionLost
       (disconnect c None (Some (StompProtocolError "Received" None)) None).1
       "closed" [timeout]).2
    = Fired (ErredBack (StompProtocolError "Received" None)).
Proof.
  intros c timeout. split.
  - refine (proj1 (disconnect_to_the_end c None None None "closed" [] _ _ _ _));
      [by eexists|reflexivity|reflexivity|reflexivity].
  - refine (proj1 (disconnect_to_the_end c None
                     (Some (StompProtocolError "Received" None)) None
                     "closed" [timeout] _ _ _ _));
      [by eexists|reflexivity|reflexivity|reflexivity].
Defined.
